(** * Candle aggregator, room broadcaster and subscribe handler

    A shallow embedding of the market-data core of the trading platform
    backend: [CandleAggregator] (websocket/aggregator.ts), [RoomBroadcaster]
    (services/broadcaster.ts) and [handleSubscribe]
    (api/handlers/candles.ts), followed by the properties of the
    specification that concern them.

    Conventions of the embedding.
    - A [Date] is the number of milliseconds since the Unix epoch, an
      integer; [new Date(x).getTime()] is therefore the identity.
    - Prices and volumes are JavaScript numbers in the source.  The prices
      are only compared and copied, and are integers here (think of a fixed
      number of decimal places).  The volumes are added up, and are
      double-precision floats here as in the source, so that a sum is
      rounded as the program rounds it.
    - A [Map] with string keys is a [gmap string _], a [Set] is a [gset].
    - [null]/[undefined] results are [None]. *)

From stdpp Require Import gmap strings list fin_maps sorting.
From Stdlib Require Import ZArith Lia PrimFloat.

Local Open Scope Z_scope.

(** ** JavaScript array primitives used by the source *)

Module JsArray.

(** [a.push(x)] *)
Definition push {A} (x : A) (a : list A) : list A := a ++ [x].

(** [a.shift()] (the array after the call; a no-op on the empty array) *)
Definition shift {A} (a : list A) : list A := tail a.

(** [a[a.length - 1]], [undefined] on the empty array *)
Definition at_last {A} (a : list A) : option A := last a.

(** [a[a.length - 1] = x], only used on a non-empty array *)
Definition set_last {A} (x : A) (a : list A) : list A :=
  <[pred (length a) := x]> a.

(** [a.slice(start)]: a negative [start] counts from the end and is
    clipped at the beginning of the array. *)
Definition slice {A} (start : Z) (a : list A) : list A :=
  let len := Z.of_nat (length a) in
  let k := if decide (start < 0) then Z.max (len + start) 0
           else Z.min start len in
  drop (Z.to_nat k) a.

(** [[...a].sort(cmp)]: the sort of the language is stable, and a stable
    sort by a consistent comparator has one possible result, computed
    here by insertion. *)
Fixpoint sort_insert {A} (cmp : A → A → Z) (x : A) (a : list A) : list A :=
  match a with
  | [] => [x]
  | y :: a' =>
      if decide (cmp x y ≤ 0) then x :: y :: a'
      else y :: sort_insert cmp x a'
  end.

Definition sort {A} (cmp : A → A → Z) (a : list A) : list A :=
  foldr (sort_insert cmp) [] a.

End JsArray.

(** ** types.ts *)

Record Candle := mkCandle {
  time : Z;
  open : Z;
  high : Z;
  low : Z;
  close : Z;
  volume : float;
  quoteVolume : option float
}.

Record Subscription := mkSubscription {
  symbol : string;
  interval : string
}.

Definition VALID_INTERVALS : list string :=
  ["1m"; "5m"; "15m"; "1h"; "4h"; "1D"; "1W"]%string.

(** [INTERVAL_TO_MS[interval]]; a key outside the table is [None]. *)
Definition INTERVAL_TO_MS (interval : string) : option Z :=
  if decide (interval = "1m"%string) then Some (60 * 1000)
  else if decide (interval = "5m"%string) then Some (5 * 60 * 1000)
  else if decide (interval = "15m"%string) then Some (15 * 60 * 1000)
  else if decide (interval = "1h"%string) then Some (60 * 60 * 1000)
  else if decide (interval = "4h"%string) then Some (4 * 60 * 60 * 1000)
  else if decide (interval = "1D"%string) then Some (24 * 60 * 60 * 1000)
  else if decide (interval = "1W"%string) then Some (7 * 24 * 60 * 60 * 1000)
  else None.

(** ** aggregator.ts *)

(** The comparator [(a, b) => a.time - b.time] of both sorts. *)
Definition compareTime (a b : Candle) : Z := time a - time b.

Definition MAX_1M_CANDLES : nat := 1440.

Record CandleAggregator := mkAggregator {
  oneMinuteCandles : gmap string (list Candle)
}.

Definition emptyAggregator : CandleAggregator := mkAggregator ∅.

Definition getOneMinuteCandles (sym : string) (agg : CandleAggregator)
  : list Candle :=
  default [] (oneMinuteCandles agg !! sym).

Definition processOneMinuteCandle (sym : string) (candle : Candle)
    (agg : CandleAggregator) : CandleAggregator :=
  let m := oneMinuteCandles agg in
  let m := match m !! sym with
           | Some _ => m
           | None => <[sym := []]> m
           end in
  let candles := default [] (m !! sym) in
  let appended :=
    let candles' := JsArray.push candle candles in
    if decide (MAX_1M_CANDLES < length candles')%nat
    then JsArray.shift candles' else candles' in
  match JsArray.at_last candles with
  | Some lastCandle =>
      if decide (time lastCandle = time candle)
      then mkAggregator (<[sym := JsArray.set_last candle candles]> m)
      else mkAggregator (<[sym := appended]> m)
  | None => mkAggregator (<[sym := appended]> m)
  end.

Definition initializeCandles (sym : string) (candles : list Candle)
    (agg : CandleAggregator) : CandleAggregator :=
  let sortedCandles := JsArray.sort compareTime candles in
  let limit := Nat.min (length sortedCandles) MAX_1M_CANDLES in
  mkAggregator
    (<[sym := JsArray.slice (- Z.of_nat limit) sortedCandles]>
       (oneMinuteCandles agg)).

(** [Math.floor(timestamp / intervalMs) * intervalMs]; the quotient of the
    two integers is exact enough in double precision for every epoch time
    the service can see, so the floor is the integer floor division. *)
Definition getIntervalStart (timestamp intervalMs : Z) : Z :=
  timestamp `div` intervalMs * intervalMs.

(** [Math.max(x, ...xs)] and [Math.min(x, ...xs)] on at least one
    argument. *)
Definition Math_max (x : Z) (xs : list Z) : Z := foldl Z.max x xs.
Definition Math_min (x : Z) (xs : list Z) : Z := foldl Z.min x xs.

(** [c.quoteVolume || 0]: a missing value, a zero and NaN are falsy. *)
Definition quoteVolume_or_0 (c : Candle) : float :=
  match quoteVolume c with
  | Some q => if (is_nan q || is_zero q)%bool then 0%float else q
  | None => 0%float
  end.

(** [aggregateCandles(candles, startTime)].  [None] stands for the
    [TypeError] that [sorted[0].open] raises on an empty array; the only
    caller never passes one. *)
Definition aggregateCandles (candles : list Candle) (startTime : Z)
  : option Candle :=
  let sorted := JsArray.sort compareTime candles in
  match sorted, JsArray.at_last sorted with
  | first :: rest, Some final =>
      Some {| time := startTime;
              open := open first;
              high := Math_max (high first) (high <$> rest);
              low := Math_min (low first) (low <$> rest);
              close := close final;
              volume := foldl (λ sum c, sum + volume c)%float 0%float sorted;
              quoteVolume :=
                Some (foldl (λ sum c, sum + quoteVolume_or_0 c)%float
                        0%float sorted) |}
  | _, _ => None
  end.

(** The filter of [getAggregatedCandle]: the candle starts inside the bar
    [[start, start + intervalMs)]. *)
Definition in_bar (start intervalMs : Z) (c : Candle) : Prop :=
  start ≤ time c ∧ time c < start + intervalMs.

Global Instance in_bar_dec start intervalMs c :
  Decision (in_bar start intervalMs c).
Proof. unfold in_bar. apply _. Defined.

(** [getAggregatedCandle(symbol, interval)]; [now] is the instant that
    [new Date()] reads.  An interval outside the table takes the
    [!intervalMs] exit; for a key that the table object inherits from its
    prototype the arithmetic yields NaN, the filter keeps nothing and the
    result is [null] all the same. *)
Definition getAggregatedCandle (now : Z) (sym itv : string)
    (agg : CandleAggregator) : option Candle :=
  if decide (itv = "1m"%string) then
    match oneMinuteCandles agg !! sym with
    | Some candles =>
        if decide (0 < length candles)%nat then JsArray.at_last candles
        else None
    | None => None
    end
  else
    match INTERVAL_TO_MS itv with
    | None => None
    | Some intervalMs =>
        match oneMinuteCandles agg !! sym with
        | None => None
        | Some candles =>
            if decide (length candles = 0%nat) then None
            else
              let currentIntervalStart := getIntervalStart now intervalMs in
              let intervalCandles :=
                filter (in_bar currentIntervalStart intervalMs) candles in
              if decide (length intervalCandles = 0%nat) then None
              else aggregateCandles intervalCandles currentIntervalStart
        end
    end.

(** ** broadcaster.ts *)

(** A connected client is identified by its handle; [client.subscriptions]
    lives on the client object and is kept next to the room registry. *)
Definition Client := nat.

Record Room := mkRoom {
  key : string;
  subscription : Subscription;
  clients : gset Client;
  currentCandle : option Candle;
  lastBroadcast : Z
}.

Record RoomBroadcaster := mkBroadcaster {
  rooms : gmap string Room;
  subscriptions : gmap Client (gset string)
}.

Definition emptyBroadcaster : RoomBroadcaster := mkBroadcaster ∅ ∅.

(** [client.subscriptions] *)
Definition subscriptions_of (client : Client) (b : RoomBroadcaster)
  : gset string :=
  default ∅ (subscriptions b !! client).

Definition getRoomKey (sub : Subscription) : string :=
  (symbol sub +:+ ":" +:+ interval sub)%string.

Definition with_clients (cs : gset Client) (room : Room) : Room :=
  {| key := key room; subscription := subscription room; clients := cs;
     currentCandle := currentCandle room;
     lastBroadcast := lastBroadcast room |}.

Definition with_currentCandle (c : option Candle) (room : Room) : Room :=
  {| key := key room; subscription := subscription room;
     clients := clients room; currentCandle := c;
     lastBroadcast := lastBroadcast room |}.

Definition addClientToRoom (client : Client) (sub : Subscription)
    (b : RoomBroadcaster) : RoomBroadcaster :=
  let roomKey := getRoomKey sub in
  let room :=
    match rooms b !! roomKey with
    | Some room => room
    | None => {| key := roomKey; subscription := sub; clients := ∅;
                 currentCandle := None; lastBroadcast := 0 |}
    end in
  {| rooms := <[roomKey := with_clients ({[client]} ∪ clients room) room]>
                (rooms b);
     subscriptions :=
       <[client := {[roomKey]} ∪ subscriptions_of client b]>
         (subscriptions b) |}.

(** The body shared by [removeClientFromRoom] and the loop of
    [removeClientFromAllRooms]: drop the client from the room and delete
    the room once it is empty. *)
Definition leaveRoom (client : Client) (roomKey : string)
    (rs : gmap string Room) : gmap string Room :=
  match rs !! roomKey with
  | Some room =>
      let cs := clients room ∖ {[client]} in
      if decide (size cs = 0%nat) then delete roomKey rs
      else <[roomKey := with_clients cs room]> rs
  | None => rs
  end.

Definition removeClientFromRoom (client : Client) (sub : Subscription)
    (b : RoomBroadcaster) : RoomBroadcaster :=
  let roomKey := getRoomKey sub in
  match rooms b !! roomKey with
  | Some _ =>
      {| rooms := leaveRoom client roomKey (rooms b);
         subscriptions :=
           <[client := subscriptions_of client b ∖ {[roomKey]}]>
             (subscriptions b) |}
  | None => b
  end.

(** The loop visits the keys of [client.subscriptions]; each key touches
    its own room only, so the order of the visit does not matter. *)
Definition removeClientFromAllRooms (client : Client)
    (b : RoomBroadcaster) : RoomBroadcaster :=
  {| rooms := foldr (leaveRoom client) (rooms b)
                (elements (subscriptions_of client b));
     subscriptions := <[client := ∅]> (subscriptions b) |}.

Definition refreshRoom (now : Z) (sym : string) (agg : CandleAggregator)
    (room : Room) : Room :=
  if decide (symbol (subscription room) = sym) then
    match getAggregatedCandle now sym (interval (subscription room)) agg with
    | Some candle => with_currentCandle (Some candle) room
    | None => room
    end
  else room.

(** [updateRoomCandle(symbol)]: the aggregator is only read.  Every room
    visited reads the clock anew: [clock k] is the instant read for the
    room of key [k]. *)
Definition updateRoomCandle (clock : string → Z) (sym : string)
    (agg : CandleAggregator) (b : RoomBroadcaster) : RoomBroadcaster :=
  {| rooms := map_imap (λ k room, Some (refreshRoom (clock k) sym agg room))
                (rooms b);
     subscriptions := subscriptions b |}.

(** ** handlers/candles.ts *)

(** A subscribe message as its type declares it: [initialBars], when
    present, is a number, an integer here. *)
Record SubscribeMessage := mkSubscribe {
  msg_symbol : string;
  msg_interval : string;
  initialBars : option Z
}.

Inductive ServerMessage :=
  | InitialDataMessage (sym itv : string) (bars : list Candle)
  | UpdateMessage (sym itv : string) (bar : Candle)
  | ErrorMessage (message : string)
  | PongMessage.

(** What a handler does to the outside world, in order. *)
Inductive Effect :=
  | Fetched (sym itv : string) (limit : Z)
  | Sent (m : ServerMessage).

(** The collaborators of the handler: the history service, whose promise
    resolves to the candles or rejects ([None]), and the socket, whose
    [send] may raise. *)
Record Env := mkEnv {
  getHistoricalCandles : string → string → Z → option (list Candle);
  send_succeeds : ServerMessage → bool
}.

Record HandlerState := mkHandlerState {
  broadcaster : RoomBroadcaster;
  effects : list Effect
}.

Inductive Completion (A : Type) :=
  | Normal (a : A)
  | Throw.
Arguments Normal {A} a.
Arguments Throw {A}.

(** Handlers run in a state monad with exceptions; the state survives a
    [Throw], as the heap does. *)
Definition Handler (A : Type) : Type :=
  HandlerState → HandlerState * Completion A.

Definition ret {A} (a : A) : Handler A := λ s, (s, Normal a).

Definition bind {A B} (h : Handler A) (k : A → Handler B) : Handler B :=
  λ s, match h s with
       | (s', Normal a) => k a s'
       | (s', Throw) => (s', Throw)
       end.

Definition try_catch {A} (body handler : Handler A) : Handler A :=
  λ s, match body s with
       | (s', Normal a) => (s', Normal a)
       | (s', Throw) => handler s'
       end.

Global Instance handler_ret : MRet Handler := @ret.
Global Instance handler_bind : MBind Handler := λ A B k h, bind h k.

Definition emit (e : Effect) : Handler unit :=
  λ s, (mkHandlerState (broadcaster s) (effects s ++ [e]), Normal tt).

(** [client.send(JSON.stringify(m))] *)
Definition client_send (env : Env) (m : ServerMessage) : Handler unit :=
  if send_succeeds env m then emit (Sent m) else λ s, (s, Throw).

(** [await historyService.getHistoricalCandles(symbol, interval, limit)] *)
Definition await_history (env : Env) (sym itv : string) (limit : Z)
  : Handler (list Candle) :=
  emit (Fetched sym itv limit) ;;
  match getHistoricalCandles env sym itv limit with
  | Some candles => ret candles
  | None => λ s, (s, Throw)
  end.

Definition join (client : Client) (sub : Subscription) : Handler unit :=
  λ s, (mkHandlerState (addClientToRoom client sub (broadcaster s))
          (effects s), Normal tt).

Definition sendError (env : Env) (message : string) : Handler unit :=
  try_catch (client_send env (ErrorMessage message)) (ret tt).

(** [VALID_INTERVALS.join(', ')] *)
Definition join_with (sep : string) (l : list string) : string :=
  match l with
  | [] => ""
  | x :: l' => foldl (λ acc y, acc +:+ sep +:+ y) x l'
  end%string.

(** [handleSubscribe(client, message)].  The log line between the
    validation and the [try] formats [initialBars], which cannot raise for a
    number; it has no other effect and no counterpart here. *)
Definition handleSubscribe (env : Env) (client : Client)
    (message : SubscribeMessage) : Handler unit :=
  let sym := msg_symbol message in
  let itv := msg_interval message in
  let initialBars := default 100 (initialBars message) in
  if decide (itv ∉ VALID_INTERVALS) then
    sendError env ("Invalid interval: " +:+ itv +:+ ". Valid: "
                   +:+ join_with ", " VALID_INTERVALS)%string
  else if decide (sym ≠ "BTC/USDT"%string) then
    sendError env ("Invalid symbol: " +:+ sym
                   +:+ ". Only BTC/USDT is supported.")%string
  else
    try_catch
      (join client (mkSubscription sym itv) ;;
       candles ← await_history env sym itv initialBars ;
       client_send env (InitialDataMessage sym itv candles))
      (sendError env "Failed to subscribe to candles").

(** ** Auxiliary notions used to state the properties *)

(** Candles in non-decreasing order of [time]. *)
Definition time_le (a b : Candle) : Prop := time a ≤ time b.

(** The last [n] elements of a list. *)
Definition last_n {A} (n : nat) (l : list A) : list A :=
  drop (length l - n) l.

(** What [processOneMinuteCandle] does to the window of its symbol. *)
Definition ingest_window (candle : Candle) (candles : list Candle)
  : list Candle :=
  let appended :=
    let candles' := JsArray.push candle candles in
    if decide (MAX_1M_CANDLES < length candles')%nat
    then JsArray.shift candles' else candles' in
  match JsArray.at_last candles with
  | Some lastCandle =>
      if decide (time lastCandle = time candle)
      then JsArray.set_last candle candles
      else appended
  | None => appended
  end.

(** Sequences of aggregator operations. *)
Inductive AggOp :=
  | Ingest (sym : string) (candle : Candle)
  | Initialize (sym : string) (candles : list Candle).

Definition applyOp (agg : CandleAggregator) (op : AggOp) : CandleAggregator :=
  match op with
  | Ingest sym candle => processOneMinuteCandle sym candle agg
  | Initialize sym candles => initializeCandles sym candles agg
  end.

Definition runOps (ops : list AggOp) (agg : CandleAggregator)
  : CandleAggregator :=
  foldl applyOp agg ops.

(** An operation respects the feed order when an ingested candle is not
    older than the tail of its window. *)
Definition op_in_order (agg : CandleAggregator) (op : AggOp) : Prop :=
  match op with
  | Ingest sym candle =>
      match JsArray.at_last (getOneMinuteCandles sym agg) with
      | Some lastCandle => time lastCandle ≤ time candle
      | None => True
      end
  | Initialize _ _ => True
  end.

Fixpoint ops_in_order (agg : CandleAggregator) (ops : list AggOp) : Prop :=
  match ops with
  | [] => True
  | op :: ops' => op_in_order agg op ∧ ops_in_order (applyOp agg op) ops'
  end.

(** Sequences of membership operations on the broadcaster. *)
Inductive RoomOp :=
  | Join (client : Client) (sub : Subscription)
  | Leave (client : Client) (sub : Subscription)
  | LeaveAll (client : Client).

Definition applyRoomOp (b : RoomBroadcaster) (op : RoomOp) : RoomBroadcaster :=
  match op with
  | Join client sub => addClientToRoom client sub b
  | Leave client sub => removeClientFromRoom client sub b
  | LeaveAll client => removeClientFromAllRooms client b
  end.

Definition runRoomOps (ops : list RoomOp) (b : RoomBroadcaster)
  : RoomBroadcaster :=
  foldl applyRoomOp b ops.

(** What becomes of a room that a client leaves: [None] when it is
    deleted. *)
Definition room_without (client : Client) (room : Room) : option Room :=
  let cs := clients room ∖ {[client]} in
  if decide (size cs = 0%nat) then None else Some (with_clients cs room).

(** The two invariants of the registry: no registered room is empty, and
    a client of a room has the key of the room among its subscriptions. *)
Definition rooms_nonempty (b : RoomBroadcaster) : Prop :=
  ∀ k room, rooms b !! k = Some room → (0 < size (clients room))%nat.

Definition members_subscribed (b : RoomBroadcaster) : Prop :=
  ∀ k room client,
    rooms b !! k = Some room → client ∈ clients room →
    k ∈ subscriptions_of client b.

(** The limits of the history fetches in a trace of effects. *)
Definition fetch_limits (es : list Effect) : list Z :=
  omap (λ e, match e with Fetched _ _ limit => Some limit | Sent _ => None end)
    es.

Definition valid_subscribe (message : SubscribeMessage) : Prop :=
  msg_interval message ∈ VALID_INTERVALS
  ∧ msg_symbol message = "BTC/USDT"%string.

(** The sum of a list of doubles, added from left to right starting from
    0, each addition rounded. *)
Definition float_sum (l : list float) : float := foldl PrimFloat.add 0%float l.

(** Sample data for the concrete instances below: a flat one-minute
    candle at instant [t] with price [p], and the two candles of the 5m
    scenario of the specification (10:00 and 10:01 on the first day of the
    epoch). *)
Definition flat_candle (t p : Z) : Candle := mkCandle t p p p p 1 None.

Definition candle_1000 : Candle := mkCandle 36000000 10 12 9 11 5 None.
Definition candle_1001 : Candle := mkCandle 36060000 11 15 10 14 3 None.

(** A history service that answers with no candles and a socket that
    accepts every message; a fresh handler state. *)
Definition quiet_env : Env := mkEnv (λ _ _ _, Some []) (λ _, true).

Definition fresh_state : HandlerState := mkHandlerState emptyBroadcaster [].

(** ** Further operations of the aggregator *)

(** [clear(symbol)] and [clearAll()] *)
Definition clear (sym : string) (agg : CandleAggregator) : CandleAggregator :=
  mkAggregator (delete sym (oneMinuteCandles agg)).

Definition clearAll (agg : CandleAggregator) : CandleAggregator :=
  mkAggregator ∅.

(** A candle whose prices are consistent: the low and the high bracket
    the open and the close. *)
Definition well_formed (c : Candle) : Prop :=
  low c ≤ open c ≤ high c ∧ low c ≤ close c ≤ high c.

(** Times that strictly increase along a list of candles. *)
Definition time_lt (a b : Candle) : Prop := time a < time b.

(** ** Further operations of the broadcaster *)

Definition BROADCAST_INTERVAL_MS : Z := 1000.

(** The sockets of the clients as a broadcast sees them: the ready state
    (1 is OPEN) and whether [send] succeeds. *)
Record Sockets := mkSockets {
  readyState : Client → Z;
  send_ok : Client → bool
}.

Definition with_lastBroadcast (t : Z) (room : Room) : Room :=
  {| key := key room; subscription := subscription room;
     clients := clients room; currentCandle := currentCandle room;
     lastBroadcast := t |}.

(** [broadcastToRoom(room)]: the update message and the clients that
    receive it, those whose socket is OPEN and accepts the send. *)
Definition broadcastToRoom (io : Sockets) (room : Room)
  : option (ServerMessage * gset Client) :=
  match currentCandle room with
  | None => None
  | Some candle =>
      Some (UpdateMessage (symbol (subscription room))
              (interval (subscription room)) candle,
            filter (λ c, readyState io c = 1 ∧ send_ok io c = true)
              (clients room))
  end.

(** The guards of the broadcast loop: the room is skipped without clients,
    without a current candle, or less than a second after its last
    broadcast. *)
Definition due (now : Z) (room : Room) : Prop :=
  size (clients room) ≠ 0%nat
  ∧ is_Some (currentCandle room)
  ∧ ¬ (now - lastBroadcast room < BROADCAST_INTERVAL_MS).

Global Instance due_dec now room : Decision (due now room).
Proof. unfold due. apply _. Defined.

(** One pass of the loop of [startBroadcastLoop], at the instant [now] that
    [Date.now()] reads once for the pass: the registry afterwards and what
    was delivered, room by room. *)
Definition broadcastTick (io : Sockets) (now : Z) (b : RoomBroadcaster)
  : RoomBroadcaster * gmap string (ServerMessage * gset Client) :=
  ({| rooms := (λ room, if decide (due now room)
                        then with_lastBroadcast now room else room)
               <$> rooms b;
      subscriptions := subscriptions b |},
   omap (λ room, if decide (due now room)
                 then broadcastToRoom io room else None) (rooms b)).

(** [getStats()]; the rooms are listed in the order of the model's map. *)
Record RoomStats := mkRoomStats {
  stats_key : string;
  clientCount : nat;
  hasCandle : bool;
  stats_lastBroadcast : Z
}.

Record BroadcasterStats := mkStats {
  totalRooms : nat;
  totalClients : nat;
  roomStats : list RoomStats
}.

Definition getStats (b : RoomBroadcaster) : BroadcasterStats :=
  let values := (map_to_list (rooms b)).*2 in
  {| totalRooms := size (rooms b);
     totalClients :=
       foldl (λ sum room, sum + size (clients room))%nat 0%nat values;
     roomStats :=
       (λ room, {| stats_key := key room;
                   clientCount := size (clients room);
                   hasCandle := bool_decide (is_Some (currentCandle room));
                   stats_lastBroadcast := lastBroadcast room |}) <$> values |}.

(** A subscription of a client has its room, and the client is in it. *)
Definition subscribed_members (b : RoomBroadcaster) : Prop :=
  ∀ k client,
    k ∈ subscriptions_of client b →
    ∃ room, rooms b !! k = Some room ∧ client ∈ clients room.

(** A room is registered under its own key, the key of its subscription. *)
Definition keys_consistent (b : RoomBroadcaster) : Prop :=
  ∀ k room,
    rooms b !! k = Some room →
    key room = k ∧ getRoomKey (subscription room) = k.

(** [client ∈ room k] *)
Definition member (client : Client) (k : string) (b : RoomBroadcaster)
  : Prop :=
  ∃ room, rooms b !! k = Some room ∧ client ∈ clients room.

(** The separator of a room key, the colon. *)
Definition colon : Ascii.ascii := Ascii.ascii_of_nat 58.

(** The character [c] occurs in the string. *)
Fixpoint occurs (c : Ascii.ascii) (s : string) : Prop :=
  match s with
  | EmptyString => False
  | String c' s' => c = c' ∨ occurs c s'
  end.

(** ** websocket.ts *)

(** [handleCandleUpdate(message)]: the payload is the parsed candle, or
    [None] when [JSON.parse] raises, which the handler catches. *)
Definition handleCandleUpdate (clock : string → Z) (message : option Candle)
    (agg : CandleAggregator) (b : RoomBroadcaster)
  : CandleAggregator * RoomBroadcaster :=
  match message with
  | Some candle =>
      let agg' := processOneMinuteCandle "BTC/USDT" candle agg in
      (agg', updateRoomCandle clock "BTC/USDT" agg' b)
  | None => (agg, b)
  end.

(** The heartbeat of the candles clients.  [alive] holds the [isAlive]
    flag of every connected client.  A pass terminates the clients whose
    flag is down, after taking them out of all rooms, and pings the others
    with their flag lowered.  The closing of a terminated socket, and the
    [close] event that follows, are not part of the pass; the order in which
    [forEach] visits the clients does not matter for the registry. *)
Record HeartbeatResult := mkHeartbeat {
  hb_alive : gmap Client bool;
  hb_broadcaster : RoomBroadcaster;
  terminated : gset Client;
  pinged : gset Client
}.

Definition dead_clients (alive : gmap Client bool) : gset Client :=
  dom (filter (λ kv, kv.2 = false) alive).

Definition heartbeat (alive : gmap Client bool) (b : RoomBroadcaster)
  : HeartbeatResult :=
  let dead := dead_clients alive in
  {| hb_alive := (λ _, false) <$> alive;
     hb_broadcaster := foldl (λ b c, removeClientFromAllRooms c b) b
                         (elements dead);
     terminated := dead;
     pinged := dom alive ∖ dead |}.

(** The [pong] event of a client. *)
Definition pong (client : Client) (alive : gmap Client bool)
  : gmap Client bool :=
  alter (λ _, true) client alive.

(** ** handlers/candles.ts, the dispatcher *)

(** A text frame as [handleClientMessage] sees it after [JSON.parse]: a
    message of one of the declared types, a message of another type, or
    [None] for a frame that does not parse or on which the dispatch raises
    before any effect, as for a subscribe that passes the validation with an
    [initialBars] that has no string conversion: the log line of
    [handleSubscribe] raises, outside its [try]. *)
Inductive ClientMessage :=
  | SubscribeFrame (message : SubscribeMessage)
  | UnsubscribeFrame (sym itv : string)
  | PingFrame
  | UnknownFrame (type : string).

Definition leave (client : Client) (sub : Subscription) : Handler unit :=
  λ s, (mkHandlerState (removeClientFromRoom client sub (broadcaster s))
          (effects s), Normal tt).

Definition handleUnsubscribe (env : Env) (client : Client)
    (sym itv : string) : Handler unit :=
  try_catch (leave client (mkSubscription sym itv))
    (sendError env "Failed to unsubscribe from candles").

Definition handlePing (env : Env) : Handler unit :=
  client_send env PongMessage.

Definition handleClientMessage (env : Env) (client : Client)
    (data : option ClientMessage) : Handler unit :=
  try_catch
    (match data with
     | None => λ s, (s, Throw)
     | Some (SubscribeFrame message) => handleSubscribe env client message
     | Some (UnsubscribeFrame sym itv) => handleUnsubscribe env client sym itv
     | Some PingFrame => handlePing env
     | Some (UnknownFrame type) =>
         sendError env ("Unknown message type: " +:+ type)%string
     end)
    (sendError env "Invalid message format").

(** ** db/timescale.ts and services/history.ts *)

(** The [intervalMap] of [getCandlesticks], in minutes. *)
Definition intervalMap (itv : string) : option Z :=
  if decide (itv = "1m"%string) then Some 1
  else if decide (itv = "5m"%string) then Some 5
  else if decide (itv = "15m"%string) then Some 15
  else if decide (itv = "1h"%string) then Some 60
  else if decide (itv = "4h"%string) then Some 240
  else if decide (itv = "1D"%string) then Some 1440
  else if decide (itv = "1W"%string) then Some 10080
  else None.

(** The store: the rows that the query returns for a bucket width in
    minutes, a symbol and a limit, already converted to candles, or [None]
    when the query fails. *)
Definition Store : Type := Z → string → Z → option (list Candle).

(** [getCandlesticks(symbol, interval, limit)] *)
Definition getCandlesticks (store : Store) (sym itv : string) (limit : Z)
  : Completion (list Candle) :=
  match intervalMap itv with
  | None => Throw
  | Some minutes =>
      match store minutes sym limit with
      | Some rows => Normal rows
      | None => Throw
      end
  end.

(** [HistoryService.getHistoricalCandles(symbol, interval, limit)]: the
    aggregator afterwards and the candles returned, or the error
    rethrown. *)
Definition historicalCandles (store : Store) (sym itv : string) (limit : Z)
    (agg : CandleAggregator) : CandleAggregator * Completion (list Candle) :=
  match getCandlesticks store sym itv limit with
  | Throw => (agg, Throw)
  | Normal formattedCandles =>
      let agg1 :=
        if decide (itv = "1m"%string ∧ (0 < length formattedCandles)%nat)
        then initializeCandles sym formattedCandles agg else agg in
      if decide (itv ≠ "1m"%string) then
        if decide (length (getOneMinuteCandles sym agg1) = 0%nat) then
          match getCandlesticks store sym "1m" 1440 with
          | Throw => (agg1, Throw)
          | Normal formatted1m =>
              (initializeCandles sym formatted1m agg1, Normal formattedCandles)
          end
        else (agg1, Normal formattedCandles)
      else (agg1, Normal formattedCandles)
  end.

(** [HistoryService.warmupAggregator(symbol)]: a failure is logged, not
    thrown. *)
Definition warmupAggregator (store : Store) (sym : string)
    (agg : CandleAggregator) : CandleAggregator :=
  match getCandlesticks store sym "1m" 1440 with
  | Normal formattedCandles => initializeCandles sym formattedCandles agg
  | Throw => agg
  end.

(** A registry with one 1m room of two clients, holding a candle and never
    broadcast, and sockets that are all OPEN and accept every send. *)
Definition sample_room : Room :=
  mkRoom "BTC/USDT:1m" (mkSubscription "BTC/USDT" "1m") {[1%nat; 2%nat]}
    (Some (flat_candle 60000 5)) 0.

Definition sample_registry : RoomBroadcaster :=
  mkBroadcaster {["BTC/USDT:1m"%string := sample_room]} ∅.

Definition open_sockets : Sockets := mkSockets (λ _, 1) (λ _, true).

(** * Properties *)

(** ** The stable sort *)

Section sort_facts.
Context {A : Type} (cmp : A → A → Z).

Lemma sort_insert_perm x (a : list A) : JsArray.sort_insert cmp x a ≡ₚ x :: a.
Proof.
  induction a as [|y a IH]; simpl; [done|].
  case_decide; [done|]. rewrite IH. apply Permutation_swap.
Qed.

Lemma sort_perm (a : list A) : JsArray.sort cmp a ≡ₚ a.
Proof.
  induction a as [|x a IH]; simpl; [done|].
  fold (JsArray.sort cmp a). by rewrite sort_insert_perm, IH.
Qed.

Lemma length_sort (a : list A) : length (JsArray.sort cmp a) = length a.
Proof. apply Permutation_length, sort_perm. Qed.

Lemma sort_cons x (a : list A) :
  JsArray.sort cmp (x :: a) = JsArray.sort_insert cmp x (JsArray.sort cmp a).
Proof. reflexivity. Qed.

End sort_facts.

Lemma sort_insert_sorted x a :
  StronglySorted time_le a →
  StronglySorted time_le (JsArray.sort_insert compareTime x a).
Proof.
  induction 1 as [|y a Hs IH Hy]; simpl.
  - repeat constructor.
  - unfold compareTime at 1. case_decide as Hc.
    + constructor; [by constructor|].
      constructor; [unfold time_le; lia|].
      eapply Forall_impl; [exact Hy|]. unfold time_le. intros; lia.
    + constructor; [done|].
      rewrite sort_insert_perm. constructor; [unfold time_le; lia|done].
Qed.

Lemma sort_sorted a : StronglySorted time_le (JsArray.sort compareTime a).
Proof.
  induction a as [|x a IH]; [constructor|].
  rewrite sort_cons. by apply sort_insert_sorted.
Qed.

(** Stability: candles of equal time keep their relative order. *)
Lemma sort_insert_stable t x a :
  filter (λ c, time c = t) (JsArray.sort_insert compareTime x a)
  = filter (λ c, time c = t) (x :: a).
Proof.
  induction a as [|y a IH]; simpl; [done|].
  unfold compareTime at 1. case_decide as Hc; [done|].
  rewrite !filter_cons in *. rewrite IH.
  repeat case_decide; try done; lia.
Qed.

Lemma sort_stable t a :
  filter (λ c, time c = t) (JsArray.sort compareTime a)
  = filter (λ c, time c = t) a.
Proof.
  induction a as [|x a IH]; [done|].
  rewrite sort_cons, sort_insert_stable, !filter_cons, IH. done.
Qed.

(** Sorting a list that is already in order changes nothing. *)
Lemma sort_sorted_id a :
  StronglySorted time_le a → JsArray.sort compareTime a = a.
Proof.
  induction 1 as [|x a Hs IH Hx]; [done|].
  rewrite sort_cons, IH. destruct a as [|y a]; [done|].
  simpl. unfold compareTime. apply Forall_cons in Hx as [Hxy _].
  unfold time_le in Hxy. case_decide; [done|lia].
Qed.

(** A list in order of time is determined by its candles of each time,
    taken in order: two stable sorts of the same array agree, whatever the
    algorithm. *)
Lemma sorted_stable_unique l1 l2 :
  StronglySorted time_le l1 → StronglySorted time_le l2 →
  (∀ t, filter (λ c, time c = t) l1 = filter (λ c, time c = t) l2) →
  l1 = l2.
Proof.
  intros Hs1. revert l2.
  induction Hs1 as [|x l1 Hs1 IH Hx]; intros l2 Hs2 Hf.
  - destruct l2 as [|y l2]; [done|].
    specialize (Hf (time y)). by rewrite filter_cons_True in Hf.
  - destruct Hs2 as [|y l2 Hs2 Hy].
    { specialize (Hf (time x)). by rewrite filter_cons_True in Hf. }
    rewrite Forall_forall in Hx, Hy.
    assert (Hxin : x ∈ filter (λ c, time c = time x) (y :: l2)).
    { rewrite <- Hf, filter_cons_True by done. left. }
    assert (Hyin : y ∈ filter (λ c, time c = time y) (x :: l1)).
    { rewrite Hf, filter_cons_True by done. left. }
    apply list_elem_of_filter in Hxin as [_ Hxin].
    apply list_elem_of_filter in Hyin as [_ Hyin].
    assert (Hxy : time x = time y).
    { apply elem_of_cons in Hxin as [->|Hxin]; [done|].
      apply elem_of_cons in Hyin as [->|Hyin]; [done|].
      apply Hy in Hxin. apply Hx in Hyin. unfold time_le in *. lia. }
    pose proof (Hf (time x)) as Hhd.
    rewrite !filter_cons_True in Hhd by done.
    injection Hhd as <- Htl. f_equal. apply IH; [done|].
    intros t. destruct (decide (time x = t)) as [<-|Hne]; [done|].
    specialize (Hf t). by rewrite !filter_cons_False in Hf.
Qed.

Lemma stable_sort_unique l l' :
  StronglySorted time_le l' →
  (∀ t, filter (λ c, time c = t) l' = filter (λ c, time c = t) l) →
  l' = JsArray.sort compareTime l.
Proof.
  intros Hs Hf. apply sorted_stable_unique; [done|apply sort_sorted|].
  intros t. by rewrite sort_stable.
Qed.

(** ** The window of one symbol *)

Lemma set_last_snoc {A} (x y : A) l : JsArray.set_last x (l ++ [y]) = l ++ [x].
Proof.
  unfold JsArray.set_last. rewrite length_app. simpl.
  replace (pred (length l + 1)) with (length l + 0)%nat by lia.
  by rewrite insert_app_r.
Qed.

Lemma getOneMinuteCandles_insert sym sym' w m :
  getOneMinuteCandles sym' (mkAggregator (<[sym := w]> m))
  = if decide (sym = sym') then w
    else getOneMinuteCandles sym' (mkAggregator m).
Proof.
  unfold getOneMinuteCandles. simpl. rewrite lookup_insert.
  by case_decide.
Qed.

(** [processOneMinuteCandle] replaces the window of its symbol by
    [ingest_window] of it and touches nothing else. *)
Lemma processOneMinuteCandle_eq sym candle agg :
  processOneMinuteCandle sym candle agg
  = mkAggregator (<[sym := ingest_window candle (getOneMinuteCandles sym agg)]>
                    (oneMinuteCandles agg)).
Proof.
  unfold processOneMinuteCandle, getOneMinuteCandles, ingest_window.
  destruct (oneMinuteCandles agg !! sym) as [w|] eqn:Hw; simpl.
  - rewrite Hw. simpl. destruct (JsArray.at_last w); [|done].
    by case_decide.
  - rewrite lookup_insert_eq. simpl. by rewrite insert_insert_eq.
Qed.

Lemma window_process sym sym' candle agg :
  getOneMinuteCandles sym' (processOneMinuteCandle sym candle agg)
  = if decide (sym = sym')
    then ingest_window candle (getOneMinuteCandles sym agg)
    else getOneMinuteCandles sym' agg.
Proof.
  rewrite processOneMinuteCandle_eq, getOneMinuteCandles_insert.
  by destruct agg.
Qed.

Lemma window_initialize sym sym' candles agg :
  getOneMinuteCandles sym' (initializeCandles sym candles agg)
  = if decide (sym = sym')
    then last_n (Nat.min (length candles) MAX_1M_CANDLES)
           (JsArray.sort compareTime candles)
    else getOneMinuteCandles sym' agg.
Proof.
  unfold initializeCandles. rewrite getOneMinuteCandles_insert.
  case_decide; [|by destruct agg].
  unfold JsArray.slice, last_n. rewrite length_sort.
  f_equal. case_decide; unfold MAX_1M_CANDLES in *; lia.
Qed.

Lemma ingest_window_older candle w lastCandle :
  JsArray.at_last w = Some lastCandle →
  time lastCandle ≠ time candle →
  ingest_window candle w
  = if decide (MAX_1M_CANDLES < length (w ++ [candle]))%nat
    then tail (w ++ [candle]) else w ++ [candle].
Proof.
  intros Hl Hne. unfold ingest_window. rewrite Hl.
  by case_decide.
Qed.

Lemma ingest_window_last candle w :
  JsArray.at_last (ingest_window candle w) = Some candle.
Proof.
  unfold ingest_window, JsArray.at_last, JsArray.push, JsArray.shift.
  assert (Happ : last (if decide (MAX_1M_CANDLES < length (w ++ [candle]))%nat
                       then tail (w ++ [candle]) else w ++ [candle])
                 = Some candle).
  { case_decide as Hlen; [|apply last_snoc].
    rewrite length_app in Hlen. unfold MAX_1M_CANDLES in Hlen. simpl in Hlen.
    destruct w as [|x w]; simpl in *; [lia|apply last_snoc]. }
  destruct (last w) as [l|] eqn:Hl; [|done].
  destruct (decide (time l = time candle)); [|done].
  apply last_Some in Hl as [w' ->]. rewrite set_last_snoc. apply last_snoc.
Qed.

Lemma ingest_window_length candle w :
  (length w ≤ MAX_1M_CANDLES →
   length (ingest_window candle w) ≤ MAX_1M_CANDLES)%nat.
Proof.
  intros Hw. unfold ingest_window, JsArray.set_last, JsArray.push, JsArray.shift.
  assert (length (if decide (MAX_1M_CANDLES < length (w ++ [candle]))%nat
                  then tail (w ++ [candle]) else w ++ [candle])
          ≤ MAX_1M_CANDLES)%nat.
  { case_decide as Hlen; [|lia].
    destruct w; simpl in *; rewrite ?length_app; simpl; lia. }
  destruct (JsArray.at_last w) as [l|]; [|done].
  destruct (decide (time l = time candle)); [|done]. by rewrite length_insert.
Qed.

Lemma sorted_le_last (w : list Candle) l x :
  StronglySorted time_le w → last w = Some l → x ∈ w → time x ≤ time l.
Proof.
  intros Hs Hl Hx. apply last_Some in Hl as [w' ->].
  apply StronglySorted_app in Hs as (Hall & _ & _).
  apply elem_of_app in Hx as [Hx|Hx].
  - apply (Hall x l); [done|]. apply list_elem_of_singleton. done.
  - apply list_elem_of_singleton in Hx as ->. lia.
Qed.

Lemma StronglySorted_snoc (w : list Candle) x :
  StronglySorted time_le w →
  (∀ l, last w = Some l → time l ≤ time x) →
  StronglySorted time_le (w ++ [x]).
Proof.
  intros Hs Hl. apply StronglySorted_app_2; [|done|repeat constructor].
  intros x1 x2 Hx1 ->%list_elem_of_singleton. unfold time_le.
  destruct (last w) as [l|] eqn:Hw.
  - pose proof (sorted_le_last w l x1 Hs Hw Hx1). specialize (Hl l eq_refl). lia.
  - apply last_None in Hw as ->. by apply elem_of_nil in Hx1.
Qed.

Lemma StronglySorted_tail (w : list Candle) :
  StronglySorted time_le w → StronglySorted time_le (tail w).
Proof. destruct 1; [constructor|done]. Qed.

Lemma StronglySorted_drop n (w : list Candle) :
  StronglySorted time_le w → StronglySorted time_le (drop n w).
Proof.
  revert w. induction n as [|n IH]; intros w Hs; [done|].
  destruct Hs; [constructor|]. simpl. by apply IH.
Qed.

Lemma ingest_window_sorted candle w :
  StronglySorted time_le w →
  (∀ l, JsArray.at_last w = Some l → time l ≤ time candle) →
  StronglySorted time_le (ingest_window candle w).
Proof.
  intros Hs Hl. unfold ingest_window, JsArray.push, JsArray.shift.
  assert (Happ : StronglySorted time_le (w ++ [candle]))
    by by apply StronglySorted_snoc.
  assert (StronglySorted time_le
            (if decide (MAX_1M_CANDLES < length (w ++ [candle]))%nat
             then tail (w ++ [candle]) else w ++ [candle])).
  { case_decide; [by apply StronglySorted_tail|done]. }
  destruct (JsArray.at_last w) as [l|] eqn:Hw; [|done].
  destruct (decide (time l = time candle)) as [Ht|]; [|done].
  apply last_Some in Hw as [w' ->]. rewrite set_last_snoc.
  apply StronglySorted_app in Hs as (Hall & Hw' & _).
  apply StronglySorted_app_2; [|done|repeat constructor].
  intros x1 x2 Hx1 ->%list_elem_of_singleton.
  specialize (Hall x1 l Hx1). unfold time_le in *. rewrite <- Ht.
  apply Hall. by apply list_elem_of_singleton.
Qed.

(** ** Ingest *)

(** C1, as stated, fails: with the tail at minute 2, a candle of minute 1
    is not rejected, the window changes. *)
Lemma C1_counterexample :
  let agg := processOneMinuteCandle "BTC/USDT" (flat_candle 120000 7)
               emptyAggregator in
  let late := flat_candle 60000 5 in
  ∃ lastCandle,
    JsArray.at_last (getOneMinuteCandles "BTC/USDT" agg) = Some lastCandle
    ∧ time late < time lastCandle
    ∧ getOneMinuteCandles "BTC/USDT"
        (processOneMinuteCandle "BTC/USDT" late agg)
      ≠ getOneMinuteCandles "BTC/USDT" agg.
Proof.
  exists (flat_candle 120000 7). split; [reflexivity|].
  split; [reflexivity|]. vm_compute. discriminate.
Qed.

(** C1 (amended): a 1m candle whose time is strictly less than the time of
    the window's tail is not rejected.  It is appended after the tail and
    becomes the new tail, the head being evicted when the length then
    exceeds 1440; the windows of the other symbols are unchanged. *)
Theorem C1_out_of_order_appended sym candle agg lastCandle :
  JsArray.at_last (getOneMinuteCandles sym agg) = Some lastCandle →
  time candle < time lastCandle →
  let w := getOneMinuteCandles sym agg in
  let agg' := processOneMinuteCandle sym candle agg in
  getOneMinuteCandles sym agg'
    = (if decide (1440 < length (w ++ [candle]))%nat
       then tail (w ++ [candle]) else w ++ [candle])
  ∧ JsArray.at_last (getOneMinuteCandles sym agg') = Some candle
  ∧ ∀ sym', sym' ≠ sym →
      getOneMinuteCandles sym' agg' = getOneMinuteCandles sym' agg.
Proof.
  intros Hl Ht w agg'. subst agg'. split; [|split].
  - rewrite window_process, decide_True by done.
    apply (ingest_window_older _ _ lastCandle); [done|lia].
  - rewrite window_process, decide_True by done. apply ingest_window_last.
  - intros sym' Hne. by rewrite window_process, decide_False.
Qed.

Lemma C1_out_of_order_appended_witness :
  let agg := processOneMinuteCandle "BTC/USDT" (flat_candle 120000 7)
               emptyAggregator in
  getOneMinuteCandles "BTC/USDT"
    (processOneMinuteCandle "BTC/USDT" (flat_candle 60000 5) agg)
  = [flat_candle 120000 7; flat_candle 60000 5].
Proof.
  intros agg.
  exact (proj1 (C1_out_of_order_appended "BTC/USDT" (flat_candle 60000 5) agg
                  (flat_candle 120000 7) eq_refl eq_refl)).
Defined.

(** C9: two consecutive ingests of candles with the same time leave the
    aggregator in the state that the second ingest alone produces. *)
Theorem C9_same_time_ingest sym agg c1 c2 :
  time c1 = time c2 →
  processOneMinuteCandle sym c2 (processOneMinuteCandle sym c1 agg)
  = processOneMinuteCandle sym c2 agg.
Proof.
  intros Ht. rewrite (processOneMinuteCandle_eq sym c2), window_process.
  rewrite decide_True by done.
  rewrite (processOneMinuteCandle_eq sym c1 agg) at 1. simpl.
  rewrite insert_insert_eq, (processOneMinuteCandle_eq sym c2 agg).
  do 2 f_equal.
  set (w := getOneMinuteCandles sym agg).
  unfold ingest_window at 1. rewrite ingest_window_last.
  rewrite decide_True by done.
  unfold ingest_window, JsArray.push, JsArray.shift, JsArray.at_last.
  assert (Happ :
    JsArray.set_last c2
      (if decide (MAX_1M_CANDLES < length (w ++ [c1]))%nat
       then tail (w ++ [c1]) else w ++ [c1])
    = if decide (MAX_1M_CANDLES < length (w ++ [c2]))%nat
      then tail (w ++ [c2]) else w ++ [c2]).
  { rewrite !length_app. simpl. case_decide as Hlen.
    - destruct w as [|x w]; [unfold MAX_1M_CANDLES in Hlen; simpl in Hlen; lia|].
      simpl. apply set_last_snoc.
    - apply set_last_snoc. }
  destruct (last w) as [l|] eqn:Hl; [|done].
  rewrite <- Ht. destruct (decide (time l = time c1)); [|done].
  apply last_Some in Hl as [w' ->]. by rewrite !set_last_snoc.
Qed.

Lemma C9_same_time_ingest_witness :
  let agg := processOneMinuteCandle "BTC/USDT" (flat_candle 60000 5)
               emptyAggregator in
  processOneMinuteCandle "BTC/USDT" (flat_candle 120000 9)
    (processOneMinuteCandle "BTC/USDT" (flat_candle 120000 7) agg)
  = processOneMinuteCandle "BTC/USDT" (flat_candle 120000 9) agg.
Proof.
  intros agg.
  exact (C9_same_time_ingest "BTC/USDT" agg (flat_candle 120000 7)
           (flat_candle 120000 9) eq_refl).
Defined.

(** ** Initialize *)

Lemma initializeCandles_eq sym candles agg :
  initializeCandles sym candles agg
  = mkAggregator
      (<[sym := last_n (Nat.min (length candles) MAX_1M_CANDLES)
                  (JsArray.sort compareTime candles)]>
         (oneMinuteCandles agg)).
Proof.
  unfold initializeCandles, JsArray.slice, last_n. rewrite length_sort.
  do 3 f_equal. case_decide; unfold MAX_1M_CANDLES in *; lia.
Qed.

Lemma length_last_n {A} n (l : list A) :
  length (last_n n l) = Nat.min (length l) n.
Proof. unfold last_n. rewrite length_drop. lia. Qed.

Lemma last_n_all {A} n (l : list A) : (length l ≤ n)%nat → last_n n l = l.
Proof.
  intros Hn. unfold last_n.
  by replace (length l - n)%nat with 0%nat by lia.
Qed.

Lemma initialized_window_sorted n candles :
  StronglySorted time_le (last_n n (JsArray.sort compareTime candles)).
Proof. apply StronglySorted_drop, sort_sorted. Qed.

(** C6: after [initializeCandles sym S], the window of [sym] is the last
    [min(|S|, 1440)] candles of [S] sorted by time: it is that suffix of the
    stable sort of [S], which is a permutation of [S] in non-decreasing
    order of time.  Initializing again, with the window itself or with [S],
    leaves the aggregator unchanged. *)
Theorem C6_initialize_then_window sym S agg :
  let agg' := initializeCandles sym S agg in
  let w := getOneMinuteCandles sym agg' in
  w = last_n (Nat.min (length S) 1440) (JsArray.sort compareTime S)
  ∧ length w = Nat.min (length S) 1440
  ∧ (∃ older, older ++ w ≡ₚ S ∧ StronglySorted time_le (older ++ w))
  ∧ initializeCandles sym w agg' = agg'
  ∧ initializeCandles sym S agg' = agg'.
Proof.
  intros agg' w.
  assert (Hw : w = last_n (Nat.min (length S) 1440)
                     (JsArray.sort compareTime S)).
  { subst w agg'. by rewrite window_initialize, decide_True. }
  assert (Hlen : length w = Nat.min (length S) 1440).
  { rewrite Hw, length_last_n, length_sort. lia. }
  split; [done|]. split; [done|]. split; [|split].
  - exists (take (length S - Nat.min (length S) 1440)
              (JsArray.sort compareTime S)).
    rewrite Hw. unfold last_n. rewrite length_sort, take_drop.
    split; [apply sort_perm|apply sort_sorted].
  - subst agg'. rewrite (initializeCandles_eq sym w).
    rewrite (initializeCandles_eq sym S agg) at 1. simpl.
    rewrite insert_insert_eq, (initializeCandles_eq sym S agg).
    do 2 f_equal. fold MAX_1M_CANDLES in Hw, Hlen.
    rewrite sort_sorted_id.
    + rewrite last_n_all; [done|lia].
    + rewrite Hw. apply initialized_window_sorted.
  - subst agg'. rewrite (initializeCandles_eq sym S (initializeCandles _ _ _)).
    rewrite (initializeCandles_eq sym S agg). simpl.
    by rewrite insert_insert_eq.
Qed.

(** ** The window invariant *)

Lemma applyOp_length agg op :
  (∀ sym, length (getOneMinuteCandles sym agg) ≤ MAX_1M_CANDLES)%nat →
  (∀ sym, length (getOneMinuteCandles sym (applyOp agg op)) ≤ MAX_1M_CANDLES)%nat.
Proof.
  intros Hinv sym. destruct op as [s c|s cs]; simpl.
  - rewrite window_process. case_decide; [|done].
    by apply ingest_window_length.
  - rewrite window_initialize. case_decide; [|done].
    rewrite length_last_n. lia.
Qed.

Lemma applyOp_sorted agg op :
  (∀ sym, StronglySorted time_le (getOneMinuteCandles sym agg)) →
  op_in_order agg op →
  ∀ sym, StronglySorted time_le (getOneMinuteCandles sym (applyOp agg op)).
Proof.
  intros Hinv Hop sym. destruct op as [s c|s cs]; simpl in *.
  - rewrite window_process. case_decide; [|done].
    apply ingest_window_sorted; [done|].
    intros l Hl. by rewrite Hl in Hop.
  - rewrite window_initialize. case_decide; [|done].
    apply initialized_window_sorted.
Qed.

Lemma runOps_length ops agg :
  (∀ sym, length (getOneMinuteCandles sym agg) ≤ MAX_1M_CANDLES)%nat →
  (∀ sym, length (getOneMinuteCandles sym (runOps ops agg)) ≤ MAX_1M_CANDLES)%nat.
Proof.
  revert agg. induction ops as [|op ops IH]; intros agg Hinv; [done|].
  simpl. apply IH. by apply applyOp_length.
Qed.

Lemma runOps_sorted ops agg :
  (∀ sym, StronglySorted time_le (getOneMinuteCandles sym agg)) →
  ops_in_order agg ops →
  ∀ sym, StronglySorted time_le (getOneMinuteCandles sym (runOps ops agg)).
Proof.
  revert agg. induction ops as [|op ops IH]; intros agg Hinv Hord; [done|].
  destruct Hord as [Hop Hord]. simpl. apply IH; [|done].
  by apply applyOp_sorted.
Qed.

(** C2, as stated, fails: ingesting minute 2 and then minute 1 leaves a
    window whose times decrease. *)
Lemma C2_counterexample :
  ¬ (∀ ops sym,
       let w := getOneMinuteCandles sym (runOps ops emptyAggregator) in
       (length w ≤ 1440)%nat ∧ Sorted time_le w).
Proof.
  intros H.
  destruct (H [Ingest "BTC/USDT" (flat_candle 120000 7);
               Ingest "BTC/USDT" (flat_candle 60000 5)] "BTC/USDT"%string)
    as [_ Hs].
  change (Sorted time_le [flat_candle 120000 7; flat_candle 60000 5]) in Hs.
  inversion Hs as [|? ? _ Hhd]; subst. inversion Hhd as [|? ? Hle]; subst.
  unfold time_le in Hle. simpl in Hle. lia.
Qed.

(** C2 (amended): for every symbol and every sequence of ingest and
    initialize operations run from the empty aggregator, the window has
    length at most 1440; its times are non-decreasing provided that every
    ingested candle was, when it arrived, not older than the tail of its
    window. *)
Theorem C2_window_invariant ops sym :
  let w := getOneMinuteCandles sym (runOps ops emptyAggregator) in
  (length w ≤ 1440)%nat
  ∧ (ops_in_order emptyAggregator ops → StronglySorted time_le w).
Proof.
  split.
  - apply (runOps_length ops emptyAggregator). intros s.
    unfold getOneMinuteCandles. simpl. rewrite lookup_empty. simpl.
    unfold MAX_1M_CANDLES. lia.
  - intros Hord. apply runOps_sorted; [|done]. intros s.
    unfold getOneMinuteCandles. simpl. rewrite lookup_empty. constructor.
Qed.

Lemma C2_window_invariant_witness :
  let ops := [Initialize "BTC/USDT" [flat_candle 120000 7; flat_candle 60000 5];
              Ingest "BTC/USDT" (flat_candle 120000 8);
              Ingest "BTC/USDT" (flat_candle 180000 9)] in
  ops_in_order emptyAggregator ops
  ∧ StronglySorted time_le
      (getOneMinuteCandles "BTC/USDT" (runOps ops emptyAggregator)).
Proof.
  intros ops.
  assert (Hord : ops_in_order emptyAggregator ops).
  { repeat split; vm_compute; discriminate. }
  split; [exact Hord|].
  exact (proj2 (C2_window_invariant ops "BTC/USDT") Hord).
Defined.

(** ** Aggregation *)

Lemma foldl_float_fmap {A} (f : A → float) (l : list A) a :
  foldl (λ sum c, sum + f c)%float a l = foldl PrimFloat.add a (f <$> l).
Proof.
  revert a. induction l as [|x l IH]; intros a; [done|].
  rewrite fmap_cons. cbn [foldl]. apply IH.
Qed.

Lemma float_sum_zeros (l : list float) :
  Forall (λ x, x = 0%float) l → float_sum l = 0%float.
Proof.
  unfold float_sum. induction 1 as [|x l -> _ IH]; [done|].
  cbn [foldl]. exact IH.
Qed.

Lemma filter_sorted (P : Candle → Prop) `{!∀ c, Decision (P c)} w :
  StronglySorted time_le w → StronglySorted time_le (filter P w).
Proof.
  induction 1 as [|x w Hs IH Hx]; [constructor|].
  rewrite filter_cons. case_decide; [|done].
  constructor; [done|]. rewrite Forall_forall in Hx |- *.
  intros y Hy. apply Hx. by apply list_elem_of_filter in Hy as [_ ?].
Qed.

Lemma Math_max_spec x xs :
  Math_max x xs ∈ x :: xs ∧ ∀ y, y ∈ x :: xs → y ≤ Math_max x xs.
Proof.
  unfold Math_max. revert x. induction xs as [|z xs IH]; intros x; simpl.
  - split; [left|]. intros y ->%list_elem_of_singleton. lia.
  - destruct (IH (Z.max x z)) as [Hin Hub]. split.
    + apply elem_of_cons in Hin as [Heq|Hin]; [|by do 2 right].
      rewrite Heq. destruct (Z.max_spec x z) as [[_ ->]|[_ ->]];
        [right; left|left].
    + intros y Hy. apply elem_of_cons in Hy as [->|Hy].
      * specialize (Hub (Z.max x z)). etrans; [|apply Hub; left]. lia.
      * apply elem_of_cons in Hy as [->|Hy].
        -- specialize (Hub (Z.max x z)). etrans; [|apply Hub; left]. lia.
        -- apply Hub. by right.
Qed.

Lemma Math_min_spec x xs :
  Math_min x xs ∈ x :: xs ∧ ∀ y, y ∈ x :: xs → Math_min x xs ≤ y.
Proof.
  unfold Math_min. revert x. induction xs as [|z xs IH]; intros x; simpl.
  - split; [left|]. intros y ->%list_elem_of_singleton. lia.
  - destruct (IH (Z.min x z)) as [Hin Hlb]. split.
    + apply elem_of_cons in Hin as [Heq|Hin]; [|by do 2 right].
      rewrite Heq. destruct (Z.min_spec x z) as [[_ ->]|[_ ->]];
        [left|right; left].
    + intros y Hy. apply elem_of_cons in Hy as [->|Hy].
      * specialize (Hlb (Z.min x z)). etrans; [apply Hlb; left|]. lia.
      * apply elem_of_cons in Hy as [->|Hy].
        -- specialize (Hlb (Z.min x z)). etrans; [apply Hlb; left|]. lia.
        -- apply Hlb. by right.
Qed.

(** What [aggregateCandles] returns on a non-empty array. *)
Lemma aggregateCandles_spec cs start :
  cs ≠ [] →
  ∃ bar, aggregateCandles cs start = Some bar
    ∧ time bar = start
    ∧ (∃ earliest, earliest ∈ cs
         ∧ (∀ c, c ∈ cs → time earliest ≤ time c)
         ∧ open bar = open earliest)
    ∧ (∃ latest, latest ∈ cs
         ∧ (∀ c, c ∈ cs → time c ≤ time latest)
         ∧ close bar = close latest)
    ∧ (high bar ∈ high <$> cs ∧ ∀ c, c ∈ cs → high c ≤ high bar)
    ∧ (low bar ∈ low <$> cs ∧ ∀ c, c ∈ cs → low bar ≤ low c)
    ∧ volume bar = float_sum (volume <$> JsArray.sort compareTime cs)
    ∧ quoteVolume bar
      = Some (float_sum (quoteVolume_or_0 <$> JsArray.sort compareTime cs)).
Proof.
  intros Hne. unfold aggregateCandles, JsArray.at_last.
  pose proof (sort_perm compareTime cs) as Hperm.
  pose proof (sort_sorted cs) as Hsorted.
  destruct (JsArray.sort compareTime cs) as [|first rest] eqn:Hsort.
  { apply Permutation_nil_l in Hperm. done. }
  destruct (last (first :: rest)) as [final|] eqn:Hlast.
  2:{ by apply last_None in Hlast. }
  eexists. split; [reflexivity|]. simpl.
  split; [done|]. split; [|split; [|split; [|split; [|split]]]].
  - exists first. split; [rewrite <- Hperm; left|]. split; [|done].
    intros c Hc. rewrite <- Hperm in Hc.
    apply StronglySorted_cons in Hsorted as [Hall _].
    apply elem_of_cons in Hc as [->|Hc]; [lia|].
    rewrite Forall_forall in Hall. by apply Hall.
  - exists final. split; [|split; [|done]].
    + rewrite <- Hperm. by apply last_Some_elem_of.
    + intros c Hc. rewrite <- Hperm in Hc.
      by apply (sorted_le_last (first :: rest)).
  - destruct (Math_max_spec (high first) (high <$> rest)) as [Hin Hub].
    change (high first :: (high <$> rest)) with (high <$> first :: rest) in *.
    split; [by rewrite <- Hperm|].
    intros c Hc. apply Hub. rewrite Hperm. by apply list_elem_of_fmap_2.
  - destruct (Math_min_spec (low first) (low <$> rest)) as [Hin Hlb].
    change (low first :: (low <$> rest)) with (low <$> first :: rest) in *.
    split; [by rewrite <- Hperm|].
    intros c Hc. apply Hlb. rewrite Hperm. by apply list_elem_of_fmap_2.
  - exact (foldl_float_fmap volume (first :: rest) 0%float).
  - f_equal. exact (foldl_float_fmap quoteVolume_or_0 (first :: rest) 0%float).
Qed.

(** ** Current candle *)

Lemma getAggregatedCandle_1m now sym agg :
  getAggregatedCandle now sym "1m" agg
  = JsArray.at_last (getOneMinuteCandles sym agg).
Proof.
  unfold getAggregatedCandle, getOneMinuteCandles.
  rewrite decide_True by done.
  destruct (oneMinuteCandles agg !! sym) as [candles|]; simpl; [|done].
  case_decide as Hlen; [done|]. destruct candles; simpl in *; [done|lia].
Qed.

Lemma getAggregatedCandle_unknown now sym itv agg :
  itv ≠ "1m"%string → INTERVAL_TO_MS itv = None →
  getAggregatedCandle now sym itv agg = None.
Proof.
  intros Hitv Hms. unfold getAggregatedCandle.
  rewrite decide_False by done. by rewrite Hms.
Qed.

Lemma getAggregatedCandle_higher now sym itv ms agg :
  itv ≠ "1m"%string → INTERVAL_TO_MS itv = Some ms →
  getAggregatedCandle now sym itv agg
  = let start := getIntervalStart now ms in
    let contributors := filter (in_bar start ms) (getOneMinuteCandles sym agg) in
    if decide (contributors = []) then None
    else aggregateCandles contributors start.
Proof.
  intros Hitv Hms. unfold getAggregatedCandle, getOneMinuteCandles.
  rewrite decide_False by done. rewrite Hms.
  destruct (oneMinuteCandles agg !! sym) as [candles|]; simpl; [|done].
  case_decide as Hlen.
  - apply length_zero_iff_nil in Hlen as ->. done.
  - case_decide as Hf.
    + apply length_zero_iff_nil in Hf. by rewrite Hf.
    + rewrite decide_False; [done|]. intros Hnil. by rewrite Hnil in Hf.
Qed.

(** C3, as stated, fails for the 1m interval: at 00:02:00 a window whose
    only candle is the one of 00:00 has no candle in the current minute,
    yet the current 1m candle is present. *)
Lemma C3_counterexample :
  let agg := processOneMinuteCandle "BTC/USDT" (flat_candle 0 5)
               emptyAggregator in
  let now := 120000 in
  (∀ c, c ∈ getOneMinuteCandles "BTC/USDT" agg →
        ¬ in_bar (getIntervalStart now 60000) 60000 c)
  ∧ INTERVAL_TO_MS "1m" = Some 60000
  ∧ getAggregatedCandle now "BTC/USDT" "1m" agg ≠ None.
Proof.
  split; [|split; [reflexivity|vm_compute; discriminate]].
  intros c Hc.
  change (c ∈ [flat_candle 0 5]) in Hc.
  apply list_elem_of_singleton in Hc as ->.
  unfold in_bar. vm_compute. intros [H1 _]. by apply H1.
Qed.

(** C3 (amended): for every symbol and every interval other than 1m, the
    current candle is absent whenever the window has no 1m candle whose
    time falls in the bar containing "now" (an interval outside the table
    has no bar and is always absent).  For the 1m interval the current
    candle is the tail of the window whatever "now" is, and is absent only
    when the window is empty. *)
Theorem C3_absent_without_contributors now sym itv agg :
  (itv ≠ "1m"%string →
   (∀ ms c, INTERVAL_TO_MS itv = Some ms →
            c ∈ getOneMinuteCandles sym agg →
            ¬ in_bar (getIntervalStart now ms) ms c) →
   getAggregatedCandle now sym itv agg = None)
  ∧ (itv = "1m"%string →
     getAggregatedCandle now sym itv agg
       = JsArray.at_last (getOneMinuteCandles sym agg)
     ∧ (getAggregatedCandle now sym itv agg = None
        ↔ getOneMinuteCandles sym agg = [])).
Proof.
  split.
  - intros Hitv Hout. destruct (INTERVAL_TO_MS itv) as [ms|] eqn:Hms.
    + rewrite (getAggregatedCandle_higher now sym itv ms) by done. simpl.
      rewrite decide_True; [done|].
      destruct (filter _ _) as [|c cs] eqn:Hf; [done|].
      assert (Hc : c ∈ filter (in_bar (getIntervalStart now ms) ms)
                         (getOneMinuteCandles sym agg))
        by (rewrite Hf; left).
      apply list_elem_of_filter in Hc as [Hin Hc].
      by destruct (Hout ms c).
    + by apply getAggregatedCandle_unknown.
  - intros ->. rewrite getAggregatedCandle_1m. split; [done|].
    unfold JsArray.at_last. apply last_None.
Qed.

Lemma C3_absent_without_contributors_witness :
  let agg := processOneMinuteCandle "BTC/USDT" (flat_candle 0 5)
               emptyAggregator in
  getAggregatedCandle 420000 "BTC/USDT" "5m" agg = None
  ∧ getAggregatedCandle 420000 "BTC/USDT" "1m" agg = Some (flat_candle 0 5).
Proof.
  intros agg. split.
  - apply (proj1 (C3_absent_without_contributors 420000 "BTC/USDT" "5m" agg)).
    + discriminate.
    + intros ms c Hms Hc. injection Hms as <-.
      change (c ∈ [flat_candle 0 5]) in Hc.
      apply list_elem_of_singleton in Hc as ->.
      vm_compute. intros [H1 _]. apply H1. reflexivity.
  - exact (proj1 (proj2 (C3_absent_without_contributors 420000 "BTC/USDT"
                           "1m" agg) eq_refl)).
Defined.

(** C4: for every symbol and every supported interval other than 1m, when
    the window has at least one 1m candle in the bar containing "now", the
    current candle is present; its time is the start of the bar, its open
    is the open of an earliest contributor, its close the close of a latest
    one, its high and low are the maximum and minimum over the
    contributors, and its volume is the sum of their volumes, added in
    double precision in order of time (the order of the window when the
    window is in order of time). *)
Theorem C4_current_aggregates now sym itv ms agg :
  itv ≠ "1m"%string →
  INTERVAL_TO_MS itv = Some ms →
  let start := now `div` ms * ms in
  let contributors := filter (in_bar start ms) (getOneMinuteCandles sym agg) in
  contributors ≠ [] →
  ∃ bar, getAggregatedCandle now sym itv agg = Some bar
    ∧ time bar = start
    ∧ (∃ earliest, earliest ∈ contributors
         ∧ (∀ c, c ∈ contributors → time earliest ≤ time c)
         ∧ open bar = open earliest)
    ∧ (∃ latest, latest ∈ contributors
         ∧ (∀ c, c ∈ contributors → time c ≤ time latest)
         ∧ close bar = close latest)
    ∧ (high bar ∈ high <$> contributors
       ∧ ∀ c, c ∈ contributors → high c ≤ high bar)
    ∧ (low bar ∈ low <$> contributors
       ∧ ∀ c, c ∈ contributors → low bar ≤ low c)
    ∧ volume bar
      = float_sum (volume <$> JsArray.sort compareTime contributors)
    ∧ (StronglySorted time_le (getOneMinuteCandles sym agg) →
       volume bar = float_sum (volume <$> contributors)).
Proof.
  intros Hitv Hms start contributors Hne.
  assert (Heq : getAggregatedCandle now sym itv agg
                = aggregateCandles contributors start).
  { rewrite (getAggregatedCandle_higher now sym itv ms) by done.
    cbv zeta. unfold getIntervalStart. by apply decide_False. }
  destruct (aggregateCandles_spec contributors start Hne)
    as (bar & Hbar & Ht & Ho & Hc & Hh & Hl & Hv & _).
  exists bar. rewrite Heq. do 7 (split; [done|]).
  intros Hs. rewrite Hv, sort_sorted_id; [done|]. by apply filter_sorted.
Qed.

Lemma C4_current_aggregates_witness :
  let agg := initializeCandles "BTC/USDT" [candle_1000; candle_1001]
               emptyAggregator in
  ∃ bar, getAggregatedCandle 36120000 "BTC/USDT" "5m" agg = Some bar
    ∧ time bar = 36000000
    ∧ volume bar = 8%float.
Proof.
  intros agg.
  destruct (C4_current_aggregates 36120000 "BTC/USDT" "5m" 300000 agg)
    as (bar & Hbar & Ht & _ & _ & _ & _ & Hv & _).
  - discriminate.
  - reflexivity.
  - vm_compute. discriminate.
  - exists bar. split; [exact Hbar|]. split; [exact Ht|exact Hv].
Defined.

(** The 5m scenario of the specification, evaluated. *)
Example scenario_5m_at_1002 :
  getAggregatedCandle 36120000 "BTC/USDT" "5m"
    (initializeCandles "BTC/USDT" [candle_1000; candle_1001] emptyAggregator)
  = Some {| time := 36000000; open := 10; high := 15; low := 9;
            close := 14; volume := 8; quoteVolume := Some 0%float |}.
Proof. reflexivity. Qed.

(** The volumes are added as doubles: 2^53 + 1 + 1 is 2^53. *)
Example aggregate_rounds_as_doubles :
  volume <$> aggregateCandles
               [mkCandle 0 1 1 1 1 9007199254740992 None;
                mkCandle 60000 1 1 1 1 1 None;
                mkCandle 120000 1 1 1 1 1 None] 0
  = Some 9007199254740992%float.
Proof. reflexivity. Qed.

(** C5, as stated, fails: the aggregate of a single candle without
    [quoteVolume] carries a [quoteVolume], namely 0. *)
Lemma C5_counterexample :
  ¬ (∀ cs start bar,
       cs ≠ [] →
       aggregateCandles cs start = Some bar →
       (quoteVolume bar = None ↔ ∀ c, c ∈ cs → quoteVolume c = None)).
Proof.
  intros H.
  destruct (H [flat_candle 0 5] 0 _ ltac:(discriminate) eq_refl) as [_ Hback].
  simpl in Hback. discriminate Hback.
  intros c ->%list_elem_of_singleton. reflexivity.
Qed.

(** C5 (amended): for every non-empty set of contributing 1m candles the
    aggregated candle always carries a [quoteVolume]: the sum of the
    contributors' [quoteVolume]s, added in double precision in order of
    time, a contributor lacking it counting as 0; it is therefore 0, not
    absent, when every contributor lacks it. *)
Theorem C5_quoteVolume_always_present cs start :
  cs ≠ [] →
  ∃ bar, aggregateCandles cs start = Some bar
    ∧ quoteVolume bar
      = Some (float_sum (quoteVolume_or_0 <$> JsArray.sort compareTime cs))
    ∧ ((∀ c, c ∈ cs → quoteVolume c = None) →
       quoteVolume bar = Some 0%float).
Proof.
  intros Hne.
  destruct (aggregateCandles_spec cs start Hne)
    as (bar & Hbar & _ & _ & _ & _ & _ & _ & Hq).
  exists bar. split; [done|]. split; [done|].
  intros Hnone. rewrite Hq. f_equal. apply float_sum_zeros.
  apply Forall_fmap, Forall_forall. intros c Hc. simpl.
  rewrite (sort_perm compareTime cs) in Hc.
  unfold quoteVolume_or_0. by rewrite (Hnone c).
Qed.

Lemma C5_quoteVolume_always_present_witness :
  ∃ bar,
    aggregateCandles
      [candle_1000; mkCandle 36060000 11 15 10 14 3 (Some 42%float)] 36000000
    = Some bar
    ∧ quoteVolume bar = Some 42%float.
Proof.
  destruct (C5_quoteVolume_always_present
              [candle_1000; mkCandle 36060000 11 15 10 14 3 (Some 42%float)]
              36000000) as (bar & Hbar & Hq & _).
  - discriminate.
  - exists bar. split; [exact Hbar|exact Hq].
Defined.

(** ** The room registry *)

Lemma leaveRoom_lookup client k rs k' :
  leaveRoom client k rs !! k'
  = if decide (k = k') then rs !! k ≫= room_without client else rs !! k'.
Proof.
  unfold leaveRoom, room_without.
  destruct (rs !! k) as [room|] eqn:Hk; simpl.
  - destruct (decide (size (clients room ∖ {[client]}) = 0%nat)).
    + rewrite lookup_delete. by case_decide.
    + rewrite lookup_insert. by case_decide.
  - case_decide; [by subst|done].
Qed.

Lemma leaveRooms_lookup client ks rs k' :
  NoDup ks →
  foldr (leaveRoom client) rs ks !! k'
  = if decide (k' ∈ ks) then rs !! k' ≫= room_without client else rs !! k'.
Proof.
  induction 1 as [|k ks Hk Hnd IH]; cbn [foldr].
  - rewrite decide_False; [done|apply not_elem_of_nil].
  - rewrite leaveRoom_lookup. destruct (decide (k = k')) as [->|Hne].
    + rewrite IH, decide_False by done.
      rewrite decide_True; [done|left].
    + rewrite IH. destruct (decide (k' ∈ ks)) as [Hin|Hnin].
      * rewrite decide_True; [done|by right].
      * rewrite decide_False; [done|].
        intros [->|?]%elem_of_cons; done.
Qed.

(** The registry after [removeClientFromAllRooms], whatever the order in
    which the loop visits the subscriptions. *)
Lemma removeClientFromAllRooms_lookup client b k :
  rooms (removeClientFromAllRooms client b) !! k
  = if decide (k ∈ subscriptions_of client b)
    then rooms b !! k ≫= room_without client
    else rooms b !! k.
Proof.
  unfold removeClientFromAllRooms. simpl.
  rewrite leaveRooms_lookup by apply NoDup_elements.
  destruct (decide (k ∈ subscriptions_of client b)) as [Hin|Hnin].
  - rewrite decide_True; [done|by apply elem_of_elements].
  - rewrite decide_False; [done|by rewrite elem_of_elements].
Qed.

Lemma removeClientFromRoom_lookup client sub b k :
  rooms (removeClientFromRoom client sub b) !! k
  = if decide (getRoomKey sub = k)
    then rooms b !! k ≫= room_without client
    else rooms b !! k.
Proof.
  unfold removeClientFromRoom.
  destruct (rooms b !! getRoomKey sub) as [room|] eqn:Hk; simpl.
  - rewrite leaveRoom_lookup. case_decide; [by subst|done].
  - case_decide; [subst; by rewrite Hk|done].
Qed.

Lemma room_without_Some client room room' :
  room_without client room = Some room' →
  (0 < size (clients room'))%nat
  ∧ clients room' = clients room ∖ {[client]}.
Proof.
  unfold room_without. case_decide as Hsz; [done|].
  intros [= <-]. simpl. split; [lia|done].
Qed.

Lemma room_without_last client room :
  clients room = {[client]} → room_without client room = None.
Proof.
  intros Hc. unfold room_without. rewrite Hc.
  rewrite decide_True; [done|].
  replace ({[client]} ∖ {[client]} : gset Client) with (∅ : gset Client)
    by set_solver.
  apply size_empty.
Qed.

Lemma addClientToRoom_lookup client sub b :
  ∃ room, rooms (addClientToRoom client sub b) !! getRoomKey sub = Some room
    ∧ client ∈ clients room
    ∧ (rooms b !! getRoomKey sub = None →
       room = {| key := getRoomKey sub; subscription := sub;
                 clients := {[client]}; currentCandle := None;
                 lastBroadcast := 0 |}).
Proof.
  unfold addClientToRoom. simpl. rewrite lookup_insert_eq.
  eexists. split; [done|]. split; [simpl; set_solver|].
  intros ->. unfold with_clients. simpl. f_equal. set_solver.
Qed.

Lemma applyRoomOp_nonempty b op :
  rooms_nonempty b → rooms_nonempty (applyRoomOp b op).
Proof.
  intros Hinv k room.
  destruct op as [client sub|client sub|client]; cbn [applyRoomOp].
  - unfold addClientToRoom. simpl. rewrite lookup_insert.
    case_decide; [|by apply Hinv].
    intros [= <-]. simpl.
    assert (size ({[client]} ∪ clients
              match rooms b !! getRoomKey sub with
              | Some room => room
              | None => {| key := getRoomKey sub; subscription := sub;
                           clients := ∅; currentCandle := None;
                           lastBroadcast := 0 |}
              end) ≠ 0)%nat; [|lia].
    intros Hsz%size_empty_inv. set_solver.
  - rewrite removeClientFromRoom_lookup. case_decide; [|by apply Hinv].
    destruct (rooms b !! k) as [r|]; simpl; [|done].
    intros Hr. by apply room_without_Some in Hr as [? _].
  - rewrite removeClientFromAllRooms_lookup. case_decide; [|by apply Hinv].
    destruct (rooms b !! k) as [r|]; simpl; [|done].
    intros Hr. by apply room_without_Some in Hr as [? _].
Qed.

Lemma subscriptions_of_insert client c ks b rs :
  subscriptions_of c (mkBroadcaster rs (<[client := ks]> (subscriptions b)))
  = if decide (client = c) then ks else subscriptions_of c b.
Proof.
  unfold subscriptions_of. simpl. rewrite lookup_insert. by case_decide.
Qed.

Lemma applyRoomOp_subscribed b op :
  members_subscribed b → members_subscribed (applyRoomOp b op).
Proof.
  intros Hinv k room c.
  destruct op as [client sub|client sub|client]; cbn [applyRoomOp].
  - unfold addClientToRoom. rewrite subscriptions_of_insert.
    cbn [rooms]. rewrite lookup_insert.
    destruct (decide (getRoomKey sub = k)) as [<-|Hne].
    + intros [= <-]. cbn [clients with_clients].
      intros [->%elem_of_singleton|Hc]%elem_of_union.
      * rewrite decide_True by done. set_solver.
      * destruct (rooms b !! getRoomKey sub) as [r|] eqn:Hr;
          [|by apply not_elem_of_empty in Hc].
        pose proof (Hinv _ _ _ Hr Hc). case_decide; [subst|]; set_solver.
    + intros Hr Hc. pose proof (Hinv _ _ _ Hr Hc).
      case_decide; [subst|]; set_solver.
  - rewrite removeClientFromRoom_lookup. unfold removeClientFromRoom.
    destruct (rooms b !! getRoomKey sub) as [r|] eqn:Hr.
    + rewrite subscriptions_of_insert.
      destruct (decide (getRoomKey sub = k)) as [<-|Hne].
      * rewrite Hr. cbn [mbind option_bind].
        intros [_ Hcs]%room_without_Some Hc. rewrite Hcs in Hc.
        apply elem_of_difference in Hc as [Hc Hne].
        rewrite decide_False by set_solver. by apply (Hinv _ r).
      * intros Hk Hc. pose proof (Hinv _ _ _ Hk Hc).
        case_decide; [subst|]; set_solver.
    + case_decide; [subst; by rewrite Hr|]. apply Hinv.
  - rewrite removeClientFromAllRooms_lookup. unfold removeClientFromAllRooms.
    rewrite subscriptions_of_insert.
    destruct (decide (k ∈ subscriptions_of client b)) as [Hin|Hnin].
    + destruct (rooms b !! k) as [r|] eqn:Hr; [|done]. cbn [mbind option_bind].
      intros [_ Hcs]%room_without_Some Hc. rewrite Hcs in Hc.
      apply elem_of_difference in Hc as [Hc Hne].
      rewrite decide_False by set_solver. by apply (Hinv _ r).
    + intros Hr Hc. pose proof (Hinv _ _ _ Hr Hc).
      case_decide; [by subst|done].
Qed.

Lemma runRoomOps_invariants ops b :
  rooms_nonempty b → members_subscribed b →
  rooms_nonempty (runRoomOps ops b) ∧ members_subscribed (runRoomOps ops b).
Proof.
  revert b. induction ops as [|op ops IH]; intros b Hne Hsub; [done|].
  simpl. apply IH; [by apply applyRoomOp_nonempty|by apply applyRoomOp_subscribed].
Qed.

(** C8: after every sequence of join, leave and leaveAll operations every
    registered room has at least one client.  A join creates the room of
    its subscription when there is none, with the joining client as its
    only member, and a room is gone from the registry as soon as its last
    client leaves it, by leave or by leaveAll. *)
Theorem C8_no_empty_room ops :
  let b := runRoomOps ops emptyBroadcaster in
  (∀ k room, rooms b !! k = Some room → (0 < size (clients room))%nat)
  ∧ (∀ client sub,
       rooms b !! getRoomKey sub = None →
       rooms (addClientToRoom client sub b) !! getRoomKey sub
       = Some {| key := getRoomKey sub; subscription := sub;
                 clients := {[client]}; currentCandle := None;
                 lastBroadcast := 0 |})
  ∧ (∀ client sub room,
       rooms b !! getRoomKey sub = Some room →
       clients room = {[client]} →
       rooms (removeClientFromRoom client sub b) !! getRoomKey sub = None
       ∧ rooms (removeClientFromAllRooms client b) !! getRoomKey sub = None).
Proof.
  intros b.
  destruct (runRoomOps_invariants ops emptyBroadcaster) as [Hne Hsub].
  { intros k room. simpl. by rewrite lookup_empty. }
  { intros k room c. simpl. by rewrite lookup_empty. }
  fold b in Hne, Hsub. split; [exact Hne|]. split.
  - intros client sub Hnone.
    destruct (addClientToRoom_lookup client sub b) as (room & -> & _ & Hnew).
    by rewrite Hnew.
  - intros client sub room Hroom Hlast. split.
    + rewrite removeClientFromRoom_lookup, decide_True by done.
      rewrite Hroom. simpl. by apply room_without_last.
    + rewrite removeClientFromAllRooms_lookup, decide_True.
      * rewrite Hroom. simpl. by apply room_without_last.
      * apply (Hsub _ room); [done|]. rewrite Hlast. set_solver.
Qed.

Lemma C8_no_empty_room_witness :
  let sub := mkSubscription "BTC/USDT" "5m" in
  let b := runRoomOps [Join 1%nat sub; Join 2%nat sub; Leave 2%nat sub]
             emptyBroadcaster in
  rooms (removeClientFromAllRooms 1%nat b) !! getRoomKey sub = None.
Proof.
  intros sub b.
  pose proof (C8_no_empty_room
                [Join 1%nat sub; Join 2%nat sub; Leave 2%nat sub])
    as (Hne & _ & Hgone).
  destruct (rooms (runRoomOps
                     [Join 1%nat sub; Join 2%nat sub; Leave 2%nat sub]
                     emptyBroadcaster) !! getRoomKey sub) as [room|] eqn:Hroom.
  - refine (proj2 (Hgone 1%nat sub room Hroom _)).
    revert Hroom. vm_compute. intros [= <-]. reflexivity.
  - revert Hroom. vm_compute. discriminate.
Defined.

(** ** Refresh *)

Lemma refreshRoom_fields now sym agg room :
  key (refreshRoom now sym agg room) = key room
  ∧ subscription (refreshRoom now sym agg room) = subscription room
  ∧ clients (refreshRoom now sym agg room) = clients room
  ∧ lastBroadcast (refreshRoom now sym agg room) = lastBroadcast room.
Proof.
  unfold refreshRoom. case_decide; [|done].
  by destruct (getAggregatedCandle _ _ _ _).
Qed.

(** C10: [updateRoomCandle sym] keeps the set of registered rooms and the
    clients' subscriptions, and in every room keeps the key, the
    subscription, the clients and the time of the last broadcast.  A room
    of another symbol, or one for which the aggregator has no current
    candle, is unchanged as a whole, so that a stored candle is never reset
    to absent; a room of [sym] for which the aggregator has a current
    candle stores that candle. *)
Theorem C10_refresh_frame clock sym agg b k room :
  rooms b !! k = Some room →
  let b' := updateRoomCandle clock sym agg b in
  let current :=
    getAggregatedCandle (clock k) sym (interval (subscription room)) agg in
  dom (rooms b') = dom (rooms b)
  ∧ subscriptions b' = subscriptions b
  ∧ ∃ room', rooms b' !! k = Some room'
      ∧ key room' = key room
      ∧ subscription room' = subscription room
      ∧ clients room' = clients room
      ∧ lastBroadcast room' = lastBroadcast room
      ∧ (symbol (subscription room) ≠ sym → room' = room)
      ∧ (current = None → room' = room)
      ∧ (symbol (subscription room) = sym → is_Some current →
         currentCandle room' = current)
      ∧ (is_Some (currentCandle room) → is_Some (currentCandle room')).
Proof.
  intros Hk b' current. subst b'. unfold updateRoomCandle.
  cbn [rooms subscriptions]. split; [|split; [done|]].
  { apply set_eq. intros k'. rewrite !elem_of_dom, map_lookup_imap.
    by destruct (rooms b !! k'). }
  exists (refreshRoom (clock k) sym agg room).
  rewrite map_lookup_imap, Hk. split; [done|].
  destruct (refreshRoom_fields (clock k) sym agg room) as (-> & -> & -> & ->).
  do 4 (split; [done|]).
  unfold refreshRoom. fold current.
  destruct (decide (symbol (subscription room) = sym)) as [Hs|Hs].
  - destruct current as [candle|]; simpl.
    + split; [done|]. split; [done|]. split; [done|]. by eexists.
    + split; [done|]. split; [done|]. split; [|done]. by intros _ [? ?].
  - split; [done|]. split; [done|]. split; [done|]. done.
Qed.

Lemma C10_refresh_frame_witness :
  let agg := emptyAggregator in
  let stale := flat_candle 60000 5 in
  let room := mkRoom "BTC/USDT:1m" (mkSubscription "BTC/USDT" "1m") {[1%nat]}
                (Some stale) 0 in
  let b := mkBroadcaster {["BTC/USDT:1m"%string := room]} ∅ in
  ∃ room', rooms (updateRoomCandle (λ _, 120000) "BTC/USDT" agg b)
             !! "BTC/USDT:1m"%string
           = Some room'
    ∧ room' = room.
Proof.
  intros agg stale room b.
  destruct (C10_refresh_frame (λ _, 120000) "BTC/USDT" agg b "BTC/USDT:1m" room)
    as (_ & _ & room' & Hroom' & _ & _ & _ & _ & _ & Hsame & _).
  - reflexivity.
  - exists room'. split; [exact Hroom'|]. apply Hsame. reflexivity.
Defined.

(** ** Subscribe *)




(** The protocol-error scenario of the specification, evaluated. *)
Example scenario_invalid_interval :
  effects (handleSubscribe quiet_env 1%nat
             (mkSubscribe "BTC/USDT" "10m" None) fresh_state).1
  = [Sent (ErrorMessage
       "Invalid interval: 10m. Valid: 1m, 5m, 15m, 1h, 4h, 1D, 1W")].
Proof. reflexivity. Qed.

(** * Further properties *)

(** ** Ingest and the current candle *)

(** X1: right after an ingest, the current 1m candle of the symbol is the
    ingested candle, whatever the clock and the previous window. *)
Theorem X1_ingest_then_current_1m now sym candle agg :
  getAggregatedCandle now sym "1m" (processOneMinuteCandle sym candle agg)
  = Some candle.
Proof.
  rewrite getAggregatedCandle_1m, window_process, decide_True by done.
  apply ingest_window_last.
Qed.

Lemma last_n_snoc_ge {A} n (l : list A) x :
  (length l < n)%nat → last_n n (l ++ [x]) = l ++ [x].
Proof. intros Hn. apply last_n_all. rewrite length_app. simpl. lia. Qed.

Lemma last_n_snoc_full {A} n (l : list A) x :
  (0 < n)%nat → (length l = n)%nat → last_n n (l ++ [x]) = tail l ++ [x].
Proof.
  intros Hn Hl. unfold last_n. rewrite length_app. simpl.
  replace (length l + 1 - n)%nat with 1%nat by lia.
  destruct l; simpl in *; [lia|]. by rewrite drop_0.
Qed.

Lemma ingest_window_new_minute candle w :
  (length w ≤ MAX_1M_CANDLES)%nat →
  (∀ l, JsArray.at_last w = Some l → time l ≠ time candle) →
  ingest_window candle w = last_n MAX_1M_CANDLES (w ++ [candle]).
Proof.
  intros Hlen Hl. unfold ingest_window, JsArray.push, JsArray.shift.
  assert (Happ :
    (if decide (MAX_1M_CANDLES < length (w ++ [candle]))%nat
     then tail (w ++ [candle]) else w ++ [candle])
    = last_n MAX_1M_CANDLES (w ++ [candle])).
  { rewrite length_app. simpl. case_decide as Hc.
    - rewrite last_n_snoc_full by (unfold MAX_1M_CANDLES in *; lia).
      destruct w; [unfold MAX_1M_CANDLES in *; simpl in *; lia|done].
    - rewrite last_n_snoc_ge; [done|lia]. }
  destruct (JsArray.at_last w) as [l|] eqn:Hw; [|done].
  destruct (decide (time l = time candle)) as [Ht|]; [|done].
  by destruct (Hl l).
Qed.

(** X2: when a candle of a new minute arrives (the window is empty or its
    tail has another time) and the window holds at most 1440 candles, the
    window becomes the last 1440 candles of the old window followed by the
    new candle: nothing is dropped below the capacity, exactly the oldest
    candle at the capacity. *)
Theorem X2_ingest_new_minute sym candle agg :
  let w := getOneMinuteCandles sym agg in
  (length w ≤ 1440)%nat →
  (∀ l, JsArray.at_last w = Some l → time l ≠ time candle) →
  let w' := getOneMinuteCandles sym (processOneMinuteCandle sym candle agg) in
  w' = last_n 1440 (w ++ [candle])
  ∧ ((length w < 1440)%nat → w' = w ++ [candle])
  ∧ ((length w = 1440)%nat → w' = tail w ++ [candle] ∧ length w' = 1440%nat).
Proof.
  intros w Hlen Hl w'. subst w'.
  rewrite window_process, decide_True by done. fold w.
  rewrite ingest_window_new_minute by done. unfold MAX_1M_CANDLES.
  split; [done|]. split.
  - intros Hlt. by apply last_n_snoc_ge.
  - intros Heq. rewrite last_n_snoc_full by lia. split; [done|].
    rewrite length_app. destruct w; simpl in *; lia.
Qed.

Lemma X2_ingest_new_minute_witness :
  let agg := processOneMinuteCandle "BTC/USDT" (flat_candle 60000 5)
               emptyAggregator in
  getOneMinuteCandles "BTC/USDT"
    (processOneMinuteCandle "BTC/USDT" (flat_candle 120000 7) agg)
  = [flat_candle 60000 5; flat_candle 120000 7].
Proof.
  intros agg.
  refine (proj1 (X2_ingest_new_minute "BTC/USDT" (flat_candle 120000 7) agg
                   _ _)).
  - change (length [flat_candle 60000 5] ≤ 1440)%nat. simpl. lia.
  - intros l Hl. vm_compute in Hl. injection Hl as <-. discriminate.
Defined.

(** X3: an update of the minute in progress (the tail of the window has
    the time of the candle) replaces the tail and nothing else: the length
    of the window and every earlier candle are kept. *)
Theorem X3_ingest_same_minute sym candle agg older lastCandle :
  getOneMinuteCandles sym agg = older ++ [lastCandle] →
  time lastCandle = time candle →
  getOneMinuteCandles sym (processOneMinuteCandle sym candle agg)
  = older ++ [candle].
Proof.
  intros Hw Ht. rewrite window_process, decide_True by done. rewrite Hw.
  unfold ingest_window, JsArray.at_last. rewrite last_snoc.
  rewrite decide_True by done. apply set_last_snoc.
Qed.

Lemma X3_ingest_same_minute_witness :
  let agg := runOps [Ingest "BTC/USDT" (flat_candle 60000 5);
                     Ingest "BTC/USDT" (flat_candle 120000 7)]
               emptyAggregator in
  getOneMinuteCandles "BTC/USDT"
    (processOneMinuteCandle "BTC/USDT" (flat_candle 120000 9) agg)
  = [flat_candle 60000 5; flat_candle 120000 9].
Proof.
  intros agg.
  exact (X3_ingest_same_minute "BTC/USDT" (flat_candle 120000 9) agg
           [flat_candle 60000 5] (flat_candle 120000 7) eq_refl eq_refl).
Defined.

(** ** A live feed and a warm-up agree *)

Lemma runOps_app ops1 ops2 agg :
  runOps (ops1 ++ ops2) agg = runOps ops2 (runOps ops1 agg).
Proof. apply foldl_app. Qed.

Lemma last_n_last_n_snoc {A} n (l : list A) x :
  (0 < n)%nat → last_n n (last_n n l ++ [x]) = last_n n (l ++ [x]).
Proof.
  intros Hn. destruct (decide (length l ≤ n)%nat) as [Hle|Hgt].
  - by rewrite (last_n_all n l).
  - rewrite last_n_snoc_full; [|done|rewrite length_last_n; lia].
    unfold last_n. rewrite length_app. simpl.
    replace (length l + 1 - n)%nat with (S (length l - n)) by lia.
    rewrite drop_app_le by lia. f_equal.
    generalize (length l - n)%nat. clear. intros k.
    revert l. induction k as [|k IH]; intros [|y l]; simpl; auto.
Qed.

Lemma time_lt_le cs : StronglySorted time_lt cs → StronglySorted time_le cs.
Proof.
  induction 1 as [|x cs Hs IH Hx]; constructor; [done|].
  eapply Forall_impl; [exact Hx|]. unfold time_lt, time_le. intros; lia.
Qed.

Lemma feed_window sym cs :
  StronglySorted time_lt cs →
  getOneMinuteCandles sym (runOps (Ingest sym <$> cs) emptyAggregator)
  = last_n MAX_1M_CANDLES cs.
Proof.
  induction cs as [|c cs IH] using rev_ind; intros Hs.
  - unfold getOneMinuteCandles. simpl. by rewrite lookup_empty.
  - apply StronglySorted_app in Hs as (Hlt & Hcs & _).
    rewrite fmap_app, runOps_app. cbn [fmap list_fmap runOps foldl applyOp].
    rewrite window_process, decide_True by done.
    fold (runOps (Ingest sym <$> cs) emptyAggregator). rewrite IH by done.
    rewrite ingest_window_new_minute.
    + apply last_n_last_n_snoc. unfold MAX_1M_CANDLES. lia.
    + rewrite length_last_n. lia.
    + intros l Hl. apply last_Some_elem_of in Hl.
      unfold last_n in Hl. apply subseteq_drop in Hl.
      specialize (Hlt l c Hl). unfold time_lt in Hlt.
      assert (c ∈ [c]) as Hc by left. specialize (Hlt Hc). lia.
Qed.

(** X4: feeding candles of strictly increasing times one by one to an
    empty aggregator leaves the window that initializing with the whole
    list gives: the last 1440 of them, in order. *)
Theorem X4_feed_agrees_with_initialize sym cs agg :
  StronglySorted time_lt cs →
  getOneMinuteCandles sym (runOps (Ingest sym <$> cs) emptyAggregator)
  = last_n 1440 cs
  ∧ getOneMinuteCandles sym (initializeCandles sym cs agg) = last_n 1440 cs.
Proof.
  intros Hs. split; [by apply feed_window|].
  rewrite window_initialize, decide_True by done.
  rewrite sort_sorted_id by by apply time_lt_le.
  unfold last_n, MAX_1M_CANDLES. f_equal. lia.
Qed.

Lemma X4_feed_agrees_with_initialize_witness :
  let cs := [flat_candle 60000 5; flat_candle 120000 7; flat_candle 180000 6] in
  getOneMinuteCandles "BTC/USDT"
    (runOps (Ingest "BTC/USDT" <$> cs) emptyAggregator)
  = last_n 1440 cs.
Proof.
  intros cs.
  refine (proj1 (X4_feed_agrees_with_initialize "BTC/USDT" cs
                   emptyAggregator _)).
  repeat constructor.
Defined.

(** ** Windows that are empty or cleared *)

Lemma getAggregatedCandle_ext now sym sym' itv agg agg' :
  getOneMinuteCandles sym agg = getOneMinuteCandles sym' agg' →
  getAggregatedCandle now sym itv agg = getAggregatedCandle now sym' itv agg'.
Proof.
  intros Hw. destruct (decide (itv = "1m"%string)) as [->|Hitv].
  - by rewrite !getAggregatedCandle_1m, Hw.
  - destruct (INTERVAL_TO_MS itv) as [ms|] eqn:Hms.
    + by rewrite !(getAggregatedCandle_higher now _ itv ms), Hw.
    + by rewrite !getAggregatedCandle_unknown.
Qed.

Lemma getAggregatedCandle_empty now sym itv agg :
  getOneMinuteCandles sym agg = [] →
  getAggregatedCandle now sym itv agg = None.
Proof.
  intros Hw. destruct (decide (itv = "1m"%string)) as [->|Hitv].
  - by rewrite getAggregatedCandle_1m, Hw.
  - destruct (INTERVAL_TO_MS itv) as [ms|] eqn:Hms.
    + by rewrite (getAggregatedCandle_higher now _ itv ms), Hw.
    + by rewrite getAggregatedCandle_unknown.
Qed.

(** X5: after [clear sym] the symbol has an empty window and no current
    candle for any interval at any instant, while the current candles of
    the other symbols are what they were; after [clearAll] no symbol has a
    current candle. *)
Theorem X5_clear_forgets sym agg :
  getOneMinuteCandles sym (clear sym agg) = []
  ∧ (∀ now itv, getAggregatedCandle now sym itv (clear sym agg) = None)
  ∧ (∀ now sym' itv, sym' ≠ sym →
       getAggregatedCandle now sym' itv (clear sym agg)
       = getAggregatedCandle now sym' itv agg)
  ∧ (∀ now sym' itv, getAggregatedCandle now sym' itv (clearAll agg) = None).
Proof.
  assert (Hc : getOneMinuteCandles sym (clear sym agg) = []).
  { unfold getOneMinuteCandles, clear. simpl. by rewrite lookup_delete_eq. }
  split; [done|]. split; [|split].
  - intros now itv. by apply getAggregatedCandle_empty.
  - intros now sym' itv Hne. apply getAggregatedCandle_ext.
    unfold getOneMinuteCandles, clear. simpl. by rewrite lookup_delete_ne.
  - intros now sym' itv. apply getAggregatedCandle_empty.
    unfold getOneMinuteCandles, clearAll. simpl. by rewrite lookup_empty.
Qed.

(** ** Bars *)

(** X6: for a positive bar length, the start of the bar of an instant is a
    multiple of the length, the bar contains the instant, recomputing the
    start from itself changes nothing, and a candle is selected for the bar
    of "now" exactly when its own time lies in the same bar. *)
Theorem X6_bar_alignment t ms :
  0 < ms →
  let start := getIntervalStart t ms in
  start ≤ t < start + ms
  ∧ start `mod` ms = 0
  ∧ getIntervalStart start ms = start
  ∧ ∀ c, in_bar start ms c ↔ getIntervalStart (time c) ms = start.
Proof.
  intros Hms start. subst start. unfold getIntervalStart, in_bar.
  pose proof (Z.div_mod t ms ltac:(lia)) as Hdm.
  pose proof (Z.mod_pos_bound t ms Hms) as Hb.
  split; [lia|]. split; [apply Z.mod_mul; lia|].
  split; [rewrite Z.div_mul by lia; done|].
  intros c.
  pose proof (Z.div_mod (time c) ms ltac:(lia)) as Hdc.
  pose proof (Z.mod_pos_bound (time c) ms Hms) as Hbc.
  split.
  - intros [Hlo Hhi]. f_equal. symmetry.
    apply (Z.div_unique_pos _ _ _ (time c - t `div` ms * ms)); lia.
  - intros Heq. apply Z.mul_cancel_r in Heq; [|lia]. rewrite <- Heq. lia.
Qed.

Lemma X6_bar_alignment_witness :
  getIntervalStart 299999 300000 ≤ 299999 < getIntervalStart 299999 300000 + 300000
  ∧ getIntervalStart 299999 300000 `mod` 300000 = 0.
Proof.
  pose proof (X6_bar_alignment 299999 300000 eq_refl) as (Hin & Hmod & _).
  split; [exact Hin|exact Hmod].
Defined.

(** ** Aggregates *)

(** X7: when every candle of the window has consistent prices (its low
    and high bracket its open and close), so has every current candle the
    aggregator returns, for every interval. *)
Theorem X7_current_well_formed now sym itv agg bar :
  Forall well_formed (getOneMinuteCandles sym agg) →
  getAggregatedCandle now sym itv agg = Some bar →
  well_formed bar.
Proof.
  intros Hwf Hbar. rewrite Forall_forall in Hwf.
  destruct (decide (itv = "1m"%string)) as [->|Hitv].
  - rewrite getAggregatedCandle_1m in Hbar.
    apply Hwf. by apply last_Some_elem_of.
  - destruct (INTERVAL_TO_MS itv) as [ms|] eqn:Hms.
    2:{ by rewrite getAggregatedCandle_unknown in Hbar. }
    rewrite (getAggregatedCandle_higher now sym itv ms) in Hbar by done.
    cbv zeta in Hbar.
    set (cs := filter _ _) in Hbar.
    destruct (decide (cs = [])) as [|Hne]; [done|].
    destruct (aggregateCandles_spec cs (getIntervalStart now ms) Hne)
      as (bar' & Hbar' & _ & (e & He & _ & Ho) & (l & Hl & _ & Hc)
          & (_ & Hhi) & (_ & Hlo) & _).
    rewrite Hbar in Hbar'. injection Hbar' as <-.
    assert (Hsub : ∀ c, c ∈ cs → well_formed c).
    { intros c Hin. apply Hwf. subst cs.
      by apply list_elem_of_filter in Hin as [_ ?]. }
    pose proof (Hsub e He) as [He1 He2]. pose proof (Hsub l Hl) as [Hl1 Hl2].
    pose proof (Hhi e He). pose proof (Hlo e He).
    pose proof (Hhi l Hl). pose proof (Hlo l Hl).
    unfold well_formed. rewrite Ho, Hc. lia.
Qed.

Lemma X7_current_well_formed_witness :
  well_formed
    {| time := 36000000; open := 10; high := 15; low := 9;
       close := 14; volume := 8; quoteVolume := Some 0%float |}.
Proof.
  apply (X7_current_well_formed 36120000 "BTC/USDT" "5m"
           (initializeCandles "BTC/USDT" [candle_1000; candle_1001]
              emptyAggregator)).
  - change (Forall well_formed [candle_1000; candle_1001]).
    repeat constructor; vm_compute; discriminate.
  - reflexivity.
Defined.

Lemma filter_time_short t (cs : list Candle) :
  NoDup (time <$> cs) → (length (filter (λ c, time c = t) cs) ≤ 1)%nat.
Proof.
  induction cs as [|c cs IH]; [simpl; lia|].
  rewrite fmap_cons. intros [Hc Hnd]%NoDup_cons.
  rewrite filter_cons. case_decide as Ht; [|by apply IH].
  replace (filter (λ c0, time c0 = t) cs) with (@nil Candle); [simpl; lia|].
  symmetry. destruct (filter _ cs) as [|d ds] eqn:Hf; [done|].
  assert (Hd : d ∈ filter (λ c0, time c0 = t) cs) by (rewrite Hf; left).
  apply list_elem_of_filter in Hd as [Hdt Hd].
  destruct Hc. rewrite Ht, <- Hdt. by apply list_elem_of_fmap_2.
Qed.

Lemma sort_perm_distinct cs cs' :
  cs ≡ₚ cs' → NoDup (time <$> cs) →
  JsArray.sort compareTime cs = JsArray.sort compareTime cs'.
Proof.
  intros Hp Hnd. apply sorted_stable_unique; [apply sort_sorted..|].
  intros t. rewrite !sort_stable.
  assert (Hpf : filter (λ c, time c = t) cs ≡ₚ filter (λ c, time c = t) cs')
    by by rewrite Hp.
  pose proof (filter_time_short t cs Hnd) as Hlen.
  destruct (filter (λ c, time c = t) cs) as [|x [|y l]]; simpl in Hlen; [| |lia].
  - by apply Permutation_nil_l in Hpf.
  - by apply Permutation_singleton_l in Hpf.
Qed.

(** X8: when the contributors have pairwise distinct times, the aggregate
    does not depend on the order in which they are given. *)
Theorem X8_aggregate_order_independent cs cs' start :
  cs ≡ₚ cs' → NoDup (time <$> cs) →
  aggregateCandles cs start = aggregateCandles cs' start.
Proof.
  intros Hp Hnd. unfold aggregateCandles.
  by rewrite (sort_perm_distinct cs cs').
Qed.

Lemma X8_aggregate_order_independent_witness :
  aggregateCandles [candle_1000; candle_1001] 36000000
  = aggregateCandles [candle_1001; candle_1000] 36000000.
Proof.
  apply X8_aggregate_order_independent.
  - apply Permutation_swap.
  - apply NoDup_cons. split.
    + intros Hin. apply list_elem_of_singleton in Hin. discriminate Hin.
    + apply NoDup_singleton.
Defined.

(** ** Membership *)

Lemma addClientToRoom_rooms client sub b k :
  rooms (addClientToRoom client sub b) !! k
  = if decide (getRoomKey sub = k)
    then let room :=
           default {| key := getRoomKey sub; subscription := sub;
                      clients := ∅; currentCandle := None;
                      lastBroadcast := 0 |}
             (rooms b !! getRoomKey sub) in
         Some (with_clients ({[client]} ∪ clients room) room)
    else rooms b !! k.
Proof.
  unfold addClientToRoom. cbn [rooms]. rewrite lookup_insert.
  case_decide; [|done]. by destruct (rooms b !! getRoomKey sub).
Qed.

Lemma addClientToRoom_subscriptions client sub b c :
  subscriptions_of c (addClientToRoom client sub b)
  = if decide (client = c)
    then {[getRoomKey sub]} ∪ subscriptions_of client b
    else subscriptions_of c b.
Proof. unfold addClientToRoom. apply subscriptions_of_insert. Qed.

Lemma removeClientFromRoom_subscriptions client sub b c :
  subscriptions_of c (removeClientFromRoom client sub b)
  = if decide (client = c ∧ is_Some (rooms b !! getRoomKey sub))
    then subscriptions_of client b ∖ {[getRoomKey sub]}
    else subscriptions_of c b.
Proof.
  unfold removeClientFromRoom.
  destruct (rooms b !! getRoomKey sub) as [room|] eqn:Hroom.
  - rewrite subscriptions_of_insert.
    destruct (decide (client = c)) as [->|Hne].
    + rewrite decide_True; [done|]. split; [done|by eexists].
    + rewrite decide_False; [done|]. by intros [? _].
  - rewrite decide_False; [done|]. intros [_ [? ?]]. done.
Qed.

Lemma removeClientFromAllRooms_subscriptions client b c :
  subscriptions_of c (removeClientFromAllRooms client b)
  = if decide (client = c) then ∅ else subscriptions_of c b.
Proof. unfold removeClientFromAllRooms. apply subscriptions_of_insert. Qed.

Lemma room_without_other client room c :
  c ∈ clients room → c ≠ client →
  ∃ room', room_without client room = Some room' ∧ c ∈ clients room'.
Proof.
  intros Hc Hne. unfold room_without.
  assert (Hin : c ∈ clients room ∖ {[client]}) by set_solver.
  rewrite decide_False.
  - eexists. split; [done|]. done.
  - intros Hsz%size_empty_inv. set_solver.
Qed.

Lemma room_without_fields client room room' :
  room_without client room = Some room' →
  key room' = key room ∧ subscription room' = subscription room
  ∧ currentCandle room' = currentCandle room
  ∧ lastBroadcast room' = lastBroadcast room.
Proof. unfold room_without. case_decide; [done|]. by intros [= <-]. Qed.

Lemma with_clients_same room : with_clients (clients room) room = room.
Proof. by destruct room. Qed.

Lemma room_without_absent client room :
  client ∉ clients room → (0 < size (clients room))%nat →
  room_without client room = Some room.
Proof.
  intros Hc Hsz. unfold room_without.
  replace (clients room ∖ {[client]}) with (clients room) by set_solver.
  rewrite decide_False by lia. by rewrite with_clients_same.
Qed.

Lemma applyRoomOp_members b op :
  subscribed_members b → subscribed_members (applyRoomOp b op).
Proof.
  intros Hinv k c.
  destruct op as [client sub|client sub|client]; cbn [applyRoomOp].
  - rewrite addClientToRoom_subscriptions, addClientToRoom_rooms.
    intros Hk.
    assert (Hold : k ∈ subscriptions_of c b → getRoomKey sub ≠ k →
                   ∃ room, rooms b !! k = Some room ∧ c ∈ clients room)
      by (intros; by apply Hinv).
    destruct (decide (getRoomKey sub = k)) as [<-|Hne].
    + eexists. split; [done|]. cbn [clients with_clients].
      destruct (decide (client = c)) as [->|Hc]; [set_solver|].
      destruct (Hinv _ _ Hk) as (room & -> & Hin). simpl. set_solver.
    + apply Hold; [|done]. case_decide; [subst|]; set_solver.
  - rewrite removeClientFromRoom_subscriptions, removeClientFromRoom_lookup.
    intros Hk.
    destruct (decide (client = c ∧ is_Some (rooms b !! getRoomKey sub)))
      as [[-> Hsome]|Hno].
    + apply elem_of_difference in Hk as [Hk Hne].
      rewrite decide_False by set_solver. by apply Hinv.
    + destruct (Hinv _ _ Hk) as (room & Hroom & Hin).
      destruct (decide (getRoomKey sub = k)) as [<-|Hne];
        [|by exists room].
      rewrite Hroom. simpl. apply room_without_other; [done|].
      intros ->. apply Hno. split; [done|by eexists].
  - rewrite removeClientFromAllRooms_subscriptions,
      removeClientFromAllRooms_lookup.
    destruct (decide (client = c)) as [->|Hne]; [set_solver|].
    intros Hk. destruct (Hinv _ _ Hk) as (room & Hroom & Hin).
    case_decide; [|by exists room].
    rewrite Hroom. simpl. apply room_without_other; [done|congruence].
Qed.

Lemma applyRoomOp_keys b op :
  keys_consistent b → keys_consistent (applyRoomOp b op).
Proof.
  intros Hinv k room.
  destruct op as [client sub|client sub|client]; cbn [applyRoomOp].
  - rewrite addClientToRoom_rooms. case_decide as Hk; [|by apply Hinv].
    subst k. cbv zeta.
    destruct (rooms b !! getRoomKey sub) as [r|] eqn:Hr; simpl.
    + intros [= <-]. simpl. by apply Hinv.
    + by intros [= <-].
  - rewrite removeClientFromRoom_lookup. case_decide; [|by apply Hinv].
    destruct (rooms b !! k) as [r|] eqn:Hr; simpl; [|done].
    intros (-> & -> & _)%room_without_fields. by apply Hinv.
  - rewrite removeClientFromAllRooms_lookup. case_decide; [|by apply Hinv].
    destruct (rooms b !! k) as [r|] eqn:Hr; simpl; [|done].
    intros (-> & -> & _)%room_without_fields. by apply Hinv.
Qed.

Lemma runRoomOps_well_formed ops :
  let b := runRoomOps ops emptyBroadcaster in
  rooms_nonempty b ∧ members_subscribed b ∧ subscribed_members b
  ∧ keys_consistent b.
Proof.
  assert (Hgen : ∀ b,
    rooms_nonempty b ∧ members_subscribed b ∧ subscribed_members b
      ∧ keys_consistent b →
    rooms_nonempty (runRoomOps ops b) ∧ members_subscribed (runRoomOps ops b)
      ∧ subscribed_members (runRoomOps ops b)
      ∧ keys_consistent (runRoomOps ops b)).
  { induction ops as [|op ops IH]; intros b Hb; [done|].
    simpl. apply IH. destruct Hb as (H1 & H2 & H3 & H4).
    split; [by apply applyRoomOp_nonempty|].
    split; [by apply applyRoomOp_subscribed|].
    split; [by apply applyRoomOp_members|by apply applyRoomOp_keys]. }
  apply Hgen. unfold rooms_nonempty, members_subscribed, subscribed_members,
    keys_consistent, subscriptions_of. simpl.
  repeat split; intros *; rewrite ?lookup_empty; simpl; try done; set_solver.
Qed.

(** X9: after every sequence of join, leave and leaveAll operations, the
    subscriptions of a client are exactly the rooms it is a member of: a key
    is in [client.subscriptions] if and only if the room of that key is
    registered and contains the client. *)
Theorem X9_subscriptions_match_membership ops client k :
  let b := runRoomOps ops emptyBroadcaster in
  k ∈ subscriptions_of client b ↔ member client k b.
Proof.
  intros b. destruct (runRoomOps_well_formed ops) as (_ & H2 & H3 & _).
  fold b in H2, H3. split.
  - intros Hk. by apply H3.
  - intros (room & Hroom & Hin). by apply (H2 _ room).
Qed.

(** X10: after every sequence of join, leave and leaveAll operations, a
    room is registered under its own [key], which is the key of its
    subscription. *)
Theorem X10_rooms_under_their_key ops k room :
  rooms (runRoomOps ops emptyBroadcaster) !! k = Some room →
  key room = k ∧ getRoomKey (subscription room) = k.
Proof.
  destruct (runRoomOps_well_formed ops) as (_ & _ & _ & H4). apply H4.
Qed.

Lemma X10_rooms_under_their_key_witness :
  let sub := mkSubscription "BTC/USDT" "5m" in
  let b := runRoomOps [Join 1%nat sub; Join 2%nat sub; Leave 1%nat sub]
             emptyBroadcaster in
  ∃ room, rooms b !! "BTC/USDT:5m"%string = Some room
    ∧ key room = "BTC/USDT:5m"%string
    ∧ getRoomKey (subscription room) = "BTC/USDT:5m"%string.
Proof.
  intros sub b.
  destruct (rooms b !! "BTC/USDT:5m"%string) as [room|] eqn:Hroom.
  - exists room. split; [reflexivity|].
    exact (X10_rooms_under_their_key
             [Join 1%nat sub; Join 2%nat sub; Leave 1%nat sub]
             "BTC/USDT:5m" room Hroom).
  - revert Hroom. vm_compute. discriminate.
Defined.

(** X11: joining a room twice is joining it once. *)
Theorem X11_join_idempotent client sub b :
  addClientToRoom client sub (addClientToRoom client sub b)
  = addClientToRoom client sub b.
Proof.
  unfold addClientToRoom at 1.
  rewrite addClientToRoom_rooms, decide_True by done.
  rewrite addClientToRoom_subscriptions, decide_True by done.
  unfold addClientToRoom. cbn [rooms subscriptions]. f_equal.
  - rewrite insert_insert_eq. f_equal.
    unfold with_clients. cbn. f_equal. set_solver.
  - rewrite insert_insert_eq. f_equal. set_solver.
Qed.

Lemma leave_after_join_rooms client sub b :
  rooms_nonempty b → ¬ member client (getRoomKey sub) b →
  rooms (removeClientFromRoom client sub (addClientToRoom client sub b))
  = rooms b.
Proof.
  intros Hne Hnot. apply map_eq. intros k.
  rewrite removeClientFromRoom_lookup, addClientToRoom_rooms.
  destruct (decide (getRoomKey sub = k)) as [<-|]; [|done].
  cbv zeta.
  destruct (rooms b !! getRoomKey sub) as [room|] eqn:Hroom;
    cbn [default mbind option_bind]; unfold room_without;
    cbn [clients with_clients].
  - assert (Hc : client ∉ clients room).
    { intros Hin. apply Hnot. by exists room. }
    replace (({[client]} ∪ clients room) ∖ {[client]}) with (clients room)
      by set_solver.
    rewrite decide_False.
    + f_equal. by destruct room.
    + specialize (Hne _ _ Hroom). lia.
  - rewrite decide_True; [done|].
    apply size_empty_iff. set_solver.
Qed.

(** X12: in a registry reached by join, leave and leaveAll operations, a
    client that joins a room it was not a member of and then leaves it
    restores the rooms and every client's subscriptions. *)
Theorem X12_join_then_leave ops client sub :
  let b := runRoomOps ops emptyBroadcaster in
  ¬ member client (getRoomKey sub) b →
  let b' := removeClientFromRoom client sub (addClientToRoom client sub b) in
  rooms b' = rooms b ∧ ∀ c, subscriptions_of c b' = subscriptions_of c b.
Proof.
  intros b Hnot b'.
  destruct (runRoomOps_well_formed ops) as (H1 & _ & H3 & _).
  fold b in H1, H3. subst b'.
  split; [exact (leave_after_join_rooms client sub b H1 Hnot)|].
  intros c.
  rewrite removeClientFromRoom_subscriptions.
  destruct (decide (client = c)) as [->|Hne].
  - rewrite decide_True.
    + rewrite addClientToRoom_subscriptions, decide_True by done.
      assert (getRoomKey sub ∉ subscriptions_of c b).
      { intros Hin. apply Hnot. by apply H3. }
      set_solver.
    + split; [done|]. rewrite addClientToRoom_rooms, decide_True by done.
      by eexists.
  - rewrite decide_False by (by intros [? _]).
    by rewrite addClientToRoom_subscriptions, decide_False.
Qed.

Lemma X12_join_then_leave_witness :
  let sub := mkSubscription "BTC/USDT" "5m" in
  let b := runRoomOps [Join 1%nat sub] emptyBroadcaster in
  rooms (removeClientFromRoom 2%nat sub (addClientToRoom 2%nat sub b))
  = rooms b.
Proof.
  intros sub b.
  refine (proj1 (X12_join_then_leave [Join 1%nat sub] 2%nat sub _)).
  intros (room & Hroom & Hin). revert Hroom Hin. vm_compute.
  intros [= <-]. vm_compute. intros Hin. discriminate Hin.
Defined.

(** X13: in a registry reached by join, leave and leaveAll operations, a
    leave by a client that is not a member of the room changes neither the
    rooms nor anybody's subscriptions. *)
Theorem X13_leave_by_non_member ops client sub :
  let b := runRoomOps ops emptyBroadcaster in
  ¬ member client (getRoomKey sub) b →
  let b' := removeClientFromRoom client sub b in
  rooms b' = rooms b ∧ ∀ c, subscriptions_of c b' = subscriptions_of c b.
Proof.
  intros b Hnot b'.
  destruct (runRoomOps_well_formed ops) as (H1 & _ & H3 & _).
  fold b in H1, H3. subst b'. split.
  - apply map_eq. intros k. rewrite removeClientFromRoom_lookup.
    destruct (decide (getRoomKey sub = k)) as [<-|]; [|done].
    destruct (rooms b !! getRoomKey sub) as [room|] eqn:Hroom; [|done].
    simpl. apply room_without_absent; [|by apply (H1 _ _ Hroom)].
    intros Hin. apply Hnot. by exists room.
  - intros c. rewrite removeClientFromRoom_subscriptions.
    case_decide as Hd; [|done]. destruct Hd as [-> _].
    assert (getRoomKey sub ∉ subscriptions_of c b).
    { intros Hin. apply Hnot. by apply H3. }
    set_solver.
Qed.

Lemma X13_leave_by_non_member_witness :
  let sub := mkSubscription "BTC/USDT" "5m" in
  let b := runRoomOps [Join 1%nat sub] emptyBroadcaster in
  rooms (removeClientFromRoom 2%nat sub b) = rooms b.
Proof.
  intros sub b.
  refine (proj1 (X13_leave_by_non_member [Join 1%nat sub] 2%nat sub _)).
  intros (room & Hroom & Hin). revert Hroom Hin. vm_compute.
  intros [= <-]. vm_compute. intros Hin. discriminate Hin.
Defined.

Lemma removeClientFromAllRooms_member client b c k :
  members_subscribed b →
  member c k (removeClientFromAllRooms client b)
  ↔ c ≠ client ∧ member c k b.
Proof.
  intros Hsub. unfold member. rewrite removeClientFromAllRooms_lookup.
  split.
  - intros (room' & Hroom' & Hin).
    destruct (decide (k ∈ subscriptions_of client b)) as [Hk|Hk].
    + destruct (rooms b !! k) as [room|] eqn:Hroom; [|done]. simpl in Hroom'.
      apply room_without_Some in Hroom' as [_ Hcs]. rewrite Hcs in Hin.
      split; [set_solver|]. exists room. split; [done|set_solver].
    + split; [|by exists room']. intros ->. apply Hk.
      by apply (Hsub _ room').
  - intros (Hne & room & Hroom & Hin). rewrite Hroom.
    case_decide; [|by exists room]. simpl. by apply room_without_other.
Qed.

(** X14: in a registry reached by join, leave and leaveAll operations,
    after [removeClientFromAllRooms client] the client is a member of no
    room and has no subscription, while every other client is a member of
    the same rooms and has the same subscriptions as before. *)
Theorem X14_leaveAll_releases ops client :
  let b := runRoomOps ops emptyBroadcaster in
  let b' := removeClientFromAllRooms client b in
  (∀ k, ¬ member client k b')
  ∧ subscriptions_of client b' = ∅
  ∧ ∀ c k, c ≠ client →
      (member c k b' ↔ member c k b)
      ∧ subscriptions_of c b' = subscriptions_of c b.
Proof.
  intros b b'. destruct (runRoomOps_well_formed ops) as (_ & H2 & _ & _).
  fold b in H2. subst b'. split; [|split].
  - intros k Hm. apply removeClientFromAllRooms_member in Hm as [? _]; done.
  - by rewrite removeClientFromAllRooms_subscriptions, decide_True.
  - intros c k Hne. split.
    + rewrite removeClientFromAllRooms_member by done. naive_solver.
    + by rewrite removeClientFromAllRooms_subscriptions, decide_False.
Qed.

Lemma append_colon_inj s1 s2 i1 i2 :
  ¬ occurs colon s1 → ¬ occurs colon s2 →
  (s1 +:+ String colon i1 = s2 +:+ String colon i2)%string →
  s1 = s2 ∧ i1 = i2.
Proof.
  revert s2. induction s1 as [|a s1 IH]; intros [|a' s2] H1 H2 Heq;
    simpl in *.
  - by injection Heq as ->.
  - injection Heq as <- _. destruct H2. by left.
  - injection Heq as -> _. destruct H1. by left.
  - injection Heq as -> Heq. destruct (IH s2) as [-> ->]; [tauto..|done|done].
Qed.

(** X15: two subscriptions whose symbols contain no colon have the same
    room key only if they are the same subscription, so that they never
    share a room. *)
Theorem X15_room_key_injective sub1 sub2 :
  ¬ occurs colon (symbol sub1) → ¬ occurs colon (symbol sub2) →
  getRoomKey sub1 = getRoomKey sub2 → sub1 = sub2.
Proof.
  intros H1 H2 Heq. destruct sub1 as [s1 i1], sub2 as [s2 i2].
  unfold getRoomKey in Heq. cbn [symbol interval] in *.
  destruct (append_colon_inj s1 s2 i1 i2 H1 H2 Heq) as [-> ->]. done.
Qed.

Lemma X15_room_key_injective_witness :
  getRoomKey (mkSubscription "BTC/USDT" "1m")
  ≠ getRoomKey (mkSubscription "BTC/USDT" "5m").
Proof.
  intros Heq. apply X15_room_key_injective in Heq.
  - discriminate Heq.
  - simpl. intros H.
    repeat (destruct H as [H|H]; [discriminate H|]); exact H.
  - simpl. intros H.
    repeat (destruct H as [H|H]; [discriminate H|]); exact H.
Defined.

(** ** Statistics *)

Lemma foldl_count_clients (rs : list Room) n :
  Forall (λ room, 0 < size (clients room))%nat rs →
  (n + length rs ≤ foldl (λ sum room, sum + size (clients room)) n rs)%nat.
Proof.
  intros Hall. revert n. induction Hall as [|room rs Hroom _ IH]; intros n.
  - simpl. lia.
  - cbn [foldl length]. cbn beta in Hroom.
    etrans; [|exact (IH (n + size (clients room))%nat)].
    revert Hroom. generalize (size (clients room)). intros m Hm. lia.
Qed.

(** X16: in a registry reached by join, leave and leaveAll operations, the
    statistics list one entry per room, every entry counts at least one
    client, and so the total number of clients is at least the number of
    rooms. *)
Theorem X16_stats_bounds ops :
  let stats := getStats (runRoomOps ops emptyBroadcaster) in
  length (roomStats stats) = totalRooms stats
  ∧ Forall (λ r, 1 ≤ clientCount r)%nat (roomStats stats)
  ∧ (totalRooms stats ≤ totalClients stats)%nat.
Proof.
  intros stats. subst stats.
  destruct (runRoomOps_well_formed ops) as (Hne & _).
  set (b := runRoomOps ops emptyBroadcaster) in *.
  assert (Hall : Forall (λ room, 0 < size (clients room))%nat
                   (map_to_list (rooms b)).*2).
  { apply Forall_forall. intros room Hin.
    apply list_elem_of_fmap in Hin as ([k r] & -> & Hin).
    apply elem_of_map_to_list in Hin. by apply (Hne k). }
  unfold getStats. cbn [roomStats totalRooms totalClients].
  split; [by rewrite !length_fmap, length_map_to_list|]. split.
  - apply Forall_fmap. eapply Forall_impl; [exact Hall|].
    intros room Hroom. exact Hroom.
  - pose proof (foldl_count_clients _ 0%nat Hall) as Hsum.
    rewrite length_fmap, length_map_to_list in Hsum. exact Hsum.
Qed.

(** ** The broadcast loop *)

Lemma broadcastTick_rooms io now b k :
  rooms (broadcastTick io now b).1 !! k
  = (λ room, if decide (due now room)
             then with_lastBroadcast now room else room) <$> rooms b !! k.
Proof. unfold broadcastTick. cbn [fst rooms]. apply lookup_fmap. Qed.

Lemma broadcastTick_deliveries io now b k :
  (broadcastTick io now b).2 !! k
  = rooms b !! k ≫= λ room, if decide (due now room)
                            then broadcastToRoom io room else None.
Proof. unfold broadcastTick. cbn [snd]. apply lookup_omap. Qed.

Lemma tick_delivered_stamped io now b k msg recipients :
  (broadcastTick io now b).2 !! k = Some (msg, recipients) →
  ∃ room, rooms b !! k = Some room
    ∧ rooms (broadcastTick io now b).1 !! k
      = Some (with_lastBroadcast now room).
Proof.
  rewrite broadcastTick_deliveries, broadcastTick_rooms.
  destruct (rooms b !! k) as [room|]; [|done]. simpl.
  destruct (decide (due now room)); [|done].
  intros _. by exists room.
Qed.

(** X17: whatever a pass of the broadcast loop delivers for a room key is
    the update message of the registered room: it carries the symbol and
    the interval of the room and its current candle, the room has clients
    and was last broadcast at least a second earlier, the recipients are
    exactly the clients of the room whose socket is OPEN and accepts the
    send, and the room is then stamped with the instant of the pass. *)
Theorem X17_tick_delivery io now b k msg recipients :
  (broadcastTick io now b).2 !! k = Some (msg, recipients) →
  ∃ room candle,
    rooms b !! k = Some room
    ∧ currentCandle room = Some candle
    ∧ msg = UpdateMessage (symbol (subscription room))
              (interval (subscription room)) candle
    ∧ 1000 ≤ now - lastBroadcast room
    ∧ clients room ≠ ∅
    ∧ (∀ c, c ∈ recipients
            ↔ c ∈ clients room ∧ readyState io c = 1 ∧ send_ok io c = true)
    ∧ rooms (broadcastTick io now b).1 !! k
      = Some (with_lastBroadcast now room).
Proof.
  rewrite broadcastTick_deliveries, broadcastTick_rooms.
  destruct (rooms b !! k) as [room|]; [|done]. simpl.
  destruct (decide (due now room)) as [(Hsz & Hc & Hlate)|]; [|done].
  unfold broadcastToRoom. destruct (currentCandle room) as [candle|] eqn:Hcc;
    [|done].
  intros [= <- <-]. exists room, candle.
  split; [done|]. split; [done|]. split; [done|].
  split; [unfold BROADCAST_INTERVAL_MS in Hlate; lia|].
  split; [intros Hempty; by rewrite Hempty, size_empty in Hsz|].
  split; [|done].
  intros c. rewrite elem_of_filter. tauto.
Qed.

Lemma X17_tick_delivery_witness :
  let io := mkSockets (λ c, if decide (c = 1%nat) then 1 else 3) (λ _, true) in
  ∃ msg recipients,
    (broadcastTick io 5000 sample_registry).2 !! "BTC/USDT:1m"%string
    = Some (msg, recipients)
    ∧ 1%nat ∈ recipients ∧ 2%nat ∉ recipients.
Proof.
  intros io.
  destruct ((broadcastTick io 5000 sample_registry).2 !! "BTC/USDT:1m"%string)
    as [[msg recipients]|] eqn:Hd.
  - exists msg, recipients. split; [reflexivity|].
    destruct (X17_tick_delivery io 5000 sample_registry "BTC/USDT:1m"
                msg recipients Hd)
      as (room & candle & Hroom & _ & _ & _ & _ & Hrec & _).
    assert (room = sample_room) as ->.
    { revert Hroom. unfold sample_registry. cbn [rooms].
      rewrite lookup_singleton_eq. by intros [= <-]. }
    split.
    + apply Hrec. split; [|done]. unfold sample_room. cbn [clients].
      apply elem_of_union_l. by apply elem_of_singleton.
    + rewrite Hrec. intros (_ & H & _). discriminate H.
  - revert Hd. vm_compute. discriminate.
Defined.

(** X18: a pass of the broadcast loop keeps the registered keys and the
    clients' subscriptions, and in every room the key, the subscription,
    the clients and the current candle; a room for which nothing is
    delivered is unchanged as a whole. *)
Theorem X18_tick_frame io now b k room :
  rooms b !! k = Some room →
  let b' := (broadcastTick io now b).1 in
  dom (rooms b') = dom (rooms b)
  ∧ subscriptions b' = subscriptions b
  ∧ ∃ room', rooms b' !! k = Some room'
      ∧ key room' = key room
      ∧ subscription room' = subscription room
      ∧ clients room' = clients room
      ∧ currentCandle room' = currentCandle room
      ∧ ((broadcastTick io now b).2 !! k = None → room' = room).
Proof.
  intros Hroom b'. subst b'.
  split; [unfold broadcastTick; cbn [fst rooms]; apply dom_fmap_L|].
  split; [done|].
  rewrite broadcastTick_rooms, broadcastTick_deliveries, Hroom. simpl.
  eexists. split; [done|].
  destruct (decide (due now room)) as [(Hsz & [candle Hc] & Hlate)|];
    [|done].
  do 4 (split; [done|]).
  unfold broadcastToRoom. by rewrite Hc.
Qed.

Lemma X18_tick_frame_witness :
  let room := mkRoom "BTC/USDT:1m" (mkSubscription "BTC/USDT" "1m")
                {[1%nat]} None 0 in
  let b := mkBroadcaster {["BTC/USDT:1m"%string := room]} ∅ in
  let io := mkSockets (λ _, 1) (λ _, true) in
  ∃ room', rooms (broadcastTick io 5000 b).1 !! "BTC/USDT:1m"%string
           = Some room'
    ∧ clients room' = {[1%nat]}.
Proof.
  intros room b io.
  destruct (X18_tick_frame io 5000 b "BTC/USDT:1m" room)
    as (_ & _ & room' & Hroom' & _ & _ & Hcl & _).
  - reflexivity.
  - exists room'. split; [exact Hroom'|exact Hcl].
Defined.

(** X19: a room that a pass of the broadcast loop delivers to at one
    instant gets nothing from a pass less than a second later, even when
    new candles have been stored in between. *)
Theorem X19_throttle io io' now now' clock sym agg b k delivery :
  (broadcastTick io now b).2 !! k = Some delivery →
  now' - now < 1000 →
  let b1 := (broadcastTick io now b).1 in
  let b2 := updateRoomCandle clock sym agg b1 in
  (broadcastTick io' now' b1).2 !! k = None
  ∧ (broadcastTick io' now' b2).2 !! k = None.
Proof.
  intros Hd Hsoon b1 b2. destruct delivery as [msg recipients].
  destruct (tick_delivered_stamped io now b k msg recipients Hd)
    as (room & Hroom & Hb1).
  assert (Hnot : ∀ r, lastBroadcast r = now → ¬ due now' r).
  { intros r Hr (_ & _ & Hlate). apply Hlate. rewrite Hr.
    unfold BROADCAST_INTERVAL_MS. lia. }
  split.
  - rewrite broadcastTick_deliveries. fold b1 in Hb1. rewrite Hb1. simpl.
    rewrite decide_False; [done|]. by apply Hnot.
  - rewrite broadcastTick_deliveries. subst b2. unfold updateRoomCandle.
    cbn [rooms]. rewrite map_lookup_imap. fold b1 in Hb1. rewrite Hb1. simpl.
    rewrite decide_False; [done|]. apply Hnot.
    by destruct (refreshRoom_fields (clock k) sym agg
                   (with_lastBroadcast now room)) as (_ & _ & _ & ->).
Qed.

Lemma X19_throttle_witness :
  (broadcastTick open_sockets 5500
     (broadcastTick open_sockets 5000 sample_registry).1).2
    !! "BTC/USDT:1m"%string
  = None.
Proof.
  refine (proj1 (X19_throttle open_sockets open_sockets 5000 5500 (λ _, 0)
                   "BTC/USDT" emptyAggregator sample_registry "BTC/USDT:1m"
                   (UpdateMessage "BTC/USDT" "1m" (flat_candle 60000 5),
                    filter (λ c, readyState open_sockets c = 1
                                 ∧ send_ok open_sockets c = true)
                      (clients sample_room)) _ _)).
  - reflexivity.
  - reflexivity.
Defined.

(** ** From the feed to the clients *)

Lemma handleCandleUpdate_room clock candle agg b k room :
  rooms b !! k = Some room →
  subscription room = mkSubscription "BTC/USDT" "1m" →
  rooms (handleCandleUpdate clock (Some candle) agg b).2 !! k
  = Some (with_currentCandle (Some candle) room).
Proof.
  intros Hroom Hsub. unfold handleCandleUpdate, updateRoomCandle.
  cbn [snd rooms]. rewrite map_lookup_imap, Hroom. simpl. f_equal.
  unfold refreshRoom. rewrite Hsub. cbn [symbol interval].
  rewrite decide_True by done.
  rewrite getAggregatedCandle_1m, window_process, decide_True by done.
  by rewrite ingest_window_last.
Qed.

(** X20: when a candle arrives from the feed, the room of the 1m
    subscription of BTC/USDT stores it, and the next pass of the broadcast
    loop, if the room has clients and was last broadcast at least a second
    earlier, delivers that very candle to the clients of the room whose
    socket is OPEN and accepts the send. *)
Theorem X20_feed_to_clients io now clock candle agg b k room :
  rooms b !! k = Some room →
  subscription room = mkSubscription "BTC/USDT" "1m" →
  clients room ≠ ∅ →
  1000 ≤ now - lastBroadcast room →
  let b' := (handleCandleUpdate clock (Some candle) agg b).2 in
  (broadcastTick io now b').2 !! k
  = Some (UpdateMessage "BTC/USDT" "1m" candle,
          filter (λ c, readyState io c = 1 ∧ send_ok io c = true)
            (clients room)).
Proof.
  intros Hroom Hsub Hcl Hlate b'. subst b'.
  rewrite broadcastTick_deliveries.
  rewrite (handleCandleUpdate_room clock candle agg b k room) by done.
  simpl. rewrite decide_True.
  - unfold broadcastToRoom. cbn [currentCandle with_currentCandle].
    change (subscription (with_currentCandle (Some candle) room))
      with (subscription room).
    change (clients (with_currentCandle (Some candle) room))
      with (clients room).
    by rewrite Hsub.
  - split; [|split].
    + cbn [clients with_currentCandle]. intros Hsz%size_empty_inv.
      apply Hcl. by apply leibniz_equiv.
    + by eexists.
    + cbn [lastBroadcast with_currentCandle]. unfold BROADCAST_INTERVAL_MS. lia.
Qed.

Lemma X20_feed_to_clients_witness :
  (broadcastTick open_sockets 5000
     (handleCandleUpdate (λ _, 130000) (Some (flat_candle 120000 9))
        emptyAggregator sample_registry).2).2 !! "BTC/USDT:1m"%string
  = Some (UpdateMessage "BTC/USDT" "1m" (flat_candle 120000 9),
          filter (λ c, readyState open_sockets c = 1
                       ∧ send_ok open_sockets c = true)
            (clients sample_room)).
Proof.
  apply (X20_feed_to_clients open_sockets 5000 (λ _, 130000)
           (flat_candle 120000 9) emptyAggregator sample_registry
           "BTC/USDT:1m" sample_room).
  - reflexivity.
  - reflexivity.
  - intros H. assert (1%nat ∈ clients sample_room) as Hin.
    { unfold sample_room. cbn [clients]. apply elem_of_union_l.
      by apply elem_of_singleton. }
    rewrite H in Hin. by apply not_elem_of_empty in Hin.
  - vm_compute. discriminate.
Defined.

(** ** Heartbeat *)

Lemma elem_of_dead_clients alive c :
  c ∈ dead_clients alive ↔ alive !! c = Some false.
Proof.
  unfold dead_clients. rewrite elem_of_dom. split.
  - intros [flag Hf]. apply map_lookup_filter_Some in Hf as [Hc Hflag].
    simpl in Hflag. by subst.
  - intros Hc. exists false. by apply map_lookup_filter_Some.
Qed.

Lemma fold_leaveAll_subscribed l b :
  members_subscribed b →
  members_subscribed (foldl (λ b c, removeClientFromAllRooms c b) b l).
Proof.
  revert b. induction l as [|c l IH]; intros b Hb; [done|].
  simpl. apply IH. exact (applyRoomOp_subscribed b (LeaveAll c) Hb).
Qed.

(** The registry after the clients of a list have been taken out of all
    rooms, whatever the order of the list. *)
Lemma fold_leaveAll_member l b c k :
  members_subscribed b →
  member c k (foldl (λ b c, removeClientFromAllRooms c b) b l)
  ↔ (c ∉ l) ∧ member c k b.
Proof.
  revert b. induction l as [|c' l IH]; intros b Hb; simpl.
  - split; [intros ?; split; [apply not_elem_of_nil|done]|by intros [_ ?]].
  - rewrite IH by exact (applyRoomOp_subscribed b (LeaveAll c') Hb).
    rewrite removeClientFromAllRooms_member by done.
    rewrite not_elem_of_cons. naive_solver.
Qed.

(** X21: a pass of the heartbeat terminates exactly the connected clients
    whose flag is down and pings exactly those whose flag is up, leaves
    every flag down, and takes the terminated clients, and nobody else, out
    of every room they were members of. *)
Theorem X21_heartbeat_pass alive b :
  members_subscribed b →
  let r := heartbeat alive b in
  (∀ c, c ∈ terminated r ↔ alive !! c = Some false)
  ∧ (∀ c, c ∈ pinged r ↔ alive !! c = Some true)
  ∧ (∀ c, is_Some (alive !! c) → hb_alive r !! c = Some false)
  ∧ (∀ c k, member c k (hb_broadcaster r)
            ↔ alive !! c ≠ Some false ∧ member c k b).
Proof.
  intros Hb r. subst r. unfold heartbeat.
  cbn [terminated pinged hb_alive hb_broadcaster].
  split; [intros c; apply elem_of_dead_clients|]. split; [|split].
  - intros c. rewrite elem_of_difference, elem_of_dead_clients, elem_of_dom.
    split.
    + intros [[[] Hc] Hn]; [done|]. by destruct Hn.
    + intros Hc. split; [by eexists|]. by rewrite Hc.
  - intros c [flag Hc]. by rewrite lookup_fmap, Hc.
  - intros c k. rewrite fold_leaveAll_member by done.
    by rewrite elem_of_elements, elem_of_dead_clients.
Qed.

Lemma X21_heartbeat_pass_witness :
  let alive : gmap Client bool := {[1%nat := false; 2%nat := true]} in
  let sub := mkSubscription "BTC/USDT" "1m" in
  let b := runRoomOps [Join 1%nat sub; Join 2%nat sub] emptyBroadcaster in
  member 2%nat "BTC/USDT:1m" (hb_broadcaster (heartbeat alive b))
  ∧ ¬ member 1%nat "BTC/USDT:1m" (hb_broadcaster (heartbeat alive b)).
Proof.
  intros alive sub b.
  assert (Hb : members_subscribed b).
  { apply runRoomOps_invariants.
    - intros k room Hk. simpl in Hk. by rewrite lookup_empty in Hk.
    - intros k room c Hk. simpl in Hk. by rewrite lookup_empty in Hk. }
  pose proof (X21_heartbeat_pass alive b Hb) as (_ & _ & _ & Hm).
  split.
  - apply Hm. split; [vm_compute; discriminate|].
    eexists. split; [reflexivity|]. vm_compute. reflexivity.
  - intros H1. apply Hm in H1 as [H1 _]. apply H1. reflexivity.
Defined.

(** X22: a connected client whose flag is up is only pinged by a pass of
    the heartbeat.  If it does not answer with a pong before the next pass,
    that pass terminates it and it is then a member of no room; if its pong
    arrives in between, the next pass pings it again and leaves its
    memberships alone. *)
Theorem X22_missed_pong alive b c :
  alive !! c = Some true → members_subscribed b →
  let r1 := heartbeat alive b in
  let r2 := heartbeat (hb_alive r1) (hb_broadcaster r1) in
  let r2' := heartbeat (pong c (hb_alive r1)) (hb_broadcaster r1) in
  (c ∉ terminated r1)
  ∧ c ∈ pinged r1
  ∧ (∀ k, member c k (hb_broadcaster r1) ↔ member c k b)
  ∧ c ∈ terminated r2
  ∧ (∀ k, ¬ member c k (hb_broadcaster r2))
  ∧ (c ∉ terminated r2')
  ∧ c ∈ pinged r2'
  ∧ (∀ k, member c k (hb_broadcaster r2') ↔ member c k (hb_broadcaster r1)).
Proof.
  intros Hc Hb r1 r2 r2'.
  assert (Hb1 : members_subscribed (hb_broadcaster r1))
    by by apply fold_leaveAll_subscribed.
  assert (Hdown : hb_alive r1 !! c = Some false).
  { subst r1. unfold heartbeat. cbn [hb_alive]. by rewrite lookup_fmap, Hc. }
  assert (Hup : pong c (hb_alive r1) !! c = Some true).
  { unfold pong. by rewrite lookup_alter_eq, Hdown. }
  assert (H1 : (c ∉ terminated r1) ∧ c ∈ pinged r1
               ∧ ∀ k, member c k (hb_broadcaster r1) ↔ member c k b).
  { subst r1. unfold heartbeat. cbn [terminated pinged hb_broadcaster].
    split; [rewrite elem_of_dead_clients, Hc; discriminate|]. split.
    - rewrite elem_of_difference, elem_of_dead_clients, elem_of_dom, Hc.
      split; [by eexists|discriminate].
    - intros k. rewrite fold_leaveAll_member by done.
      rewrite elem_of_elements, elem_of_dead_clients, Hc. naive_solver. }
  destruct H1 as (H1a & H1b & H1c).
  split; [done|]. split; [done|]. split; [done|].
  subst r2 r2'. clearbody r1. unfold heartbeat.
  cbn [terminated pinged hb_broadcaster].
  split; [by apply elem_of_dead_clients|]. split; [|split; [|split]].
  - intros k Hm. apply fold_leaveAll_member in Hm as [Hn _]; [|done].
    apply Hn. apply elem_of_elements. by apply elem_of_dead_clients.
  - rewrite elem_of_dead_clients, Hup. discriminate.
  - rewrite elem_of_difference, elem_of_dead_clients, elem_of_dom, Hup.
    split; [by eexists|discriminate].
  - intros k. rewrite fold_leaveAll_member by done.
    rewrite elem_of_elements, elem_of_dead_clients, Hup. naive_solver.
Qed.

Lemma X22_missed_pong_witness :
  let alive : gmap Client bool := {[1%nat := true; 2%nat := true]} in
  let sub := mkSubscription "BTC/USDT" "1m" in
  let b := runRoomOps [Join 1%nat sub; Join 2%nat sub] emptyBroadcaster in
  let r1 := heartbeat alive b in
  1%nat ∈ terminated (heartbeat (hb_alive r1) (hb_broadcaster r1))
  ∧ 1%nat ∉ terminated (heartbeat (pong 1%nat (hb_alive r1))
                          (hb_broadcaster r1)).
Proof.
  intros alive sub b r1.
  assert (Hb : members_subscribed b).
  { apply runRoomOps_invariants.
    - intros k room Hk. simpl in Hk. by rewrite lookup_empty in Hk.
    - intros k room c Hk. simpl in Hk. by rewrite lookup_empty in Hk. }
  pose proof (X22_missed_pong alive b 1%nat eq_refl Hb)
    as (_ & _ & _ & H1 & _ & H2 & _).
  split; [exact H1|exact H2].
Defined.

(** ** The message dispatcher *)

Lemma try_catch_normal {A} (body handler : Handler A) s s' a :
  body s = (s', Normal a) → try_catch body handler s = (s', Normal a).
Proof. intros Hb. unfold try_catch. by rewrite Hb. Qed.

Lemma sendError_eq env message s :
  sendError env message s
  = if send_succeeds env (ErrorMessage message)
    then (mkHandlerState (broadcaster s)
            (effects s ++ [Sent (ErrorMessage message)]), Normal tt)
    else (s, Normal tt).
Proof.
  unfold sendError, try_catch, client_send, emit, ret.
  by destruct (send_succeeds env _).
Qed.

Lemma sendError_frame env message s :
  ∃ new, sendError env message s
         = (mkHandlerState (broadcaster s) (effects s ++ new), Normal tt)
    ∧ fetch_limits new = []
    ∧ (send_succeeds env (ErrorMessage message) = true →
       new = [Sent (ErrorMessage message)]).
Proof.
  rewrite sendError_eq. destruct (send_succeeds env _).
  - eexists. split; [done|]. split; done.
  - exists []. rewrite app_nil_r. destruct s. split; [done|]. split; done.
Qed.

Lemma handleSubscribe_valid env client message s :
  valid_subscribe message →
  let sym := msg_symbol message in
  let itv := msg_interval message in
  let limit := default 100 (initialBars message) in
  let s1 := mkHandlerState
              (addClientToRoom client (mkSubscription sym itv) (broadcaster s))
              (effects s ++ [Fetched sym itv limit]) in
  handleSubscribe env client message s
  = match getHistoricalCandles env sym itv limit with
    | Some candles =>
        if send_succeeds env (InitialDataMessage sym itv candles)
        then (mkHandlerState (broadcaster s1)
                (effects s1 ++ [Sent (InitialDataMessage sym itv candles)]),
              Normal tt)
        else sendError env "Failed to subscribe to candles" s1
    | None => sendError env "Failed to subscribe to candles" s1
    end.
Proof.
  intros [Hi Hs] sym itv limit s1. unfold handleSubscribe.
  rewrite decide_False by (intros Hn; by apply Hn).
  rewrite decide_False by (intros Hn; by apply Hn).
  unfold try_catch, mbind, handler_bind, bind, join, await_history,
    mbind, handler_bind, bind, emit, client_send, emit.
  cbn [broadcaster effects]. fold sym itv limit.
  destruct (getHistoricalCandles env sym itv limit) as [candles|];
    unfold ret; [|done].
  by destruct (send_succeeds env (InitialDataMessage sym itv candles)).
Qed.

Lemma handleSubscribe_invalid env client message s :
  ¬ valid_subscribe message →
  handleSubscribe env client message s
  = sendError env
      (if decide (msg_interval message ∉ VALID_INTERVALS)
       then ("Invalid interval: " +:+ msg_interval message +:+ ". Valid: "
             +:+ join_with ", " VALID_INTERVALS)%string
       else ("Invalid symbol: " +:+ msg_symbol message
             +:+ ". Only BTC/USDT is supported.")%string) s.
Proof.
  intros Hv. unfold handleSubscribe.
  destruct (decide (msg_interval message ∉ VALID_INTERVALS)) as [|Hi]; [done|].
  apply dec_stable in Hi.
  rewrite decide_True; [done|]. intros Hs. apply Hv. by split.
Qed.

Lemma handleSubscribe_normal env client message s :
  ∃ s', handleSubscribe env client message s = (s', Normal tt).
Proof.
  destruct (decide (valid_subscribe message)) as [Hv|Hv].
  - rewrite handleSubscribe_valid by done. cbv zeta.
    destruct (getHistoricalCandles env _ _ _) as [candles|].
    + destruct (send_succeeds env (InitialDataMessage _ _ _)); [by eexists|].
      rewrite sendError_eq. destruct (send_succeeds env _); by eexists.
    + rewrite sendError_eq. destruct (send_succeeds env _); by eexists.
  - rewrite handleSubscribe_invalid by done.
    rewrite sendError_eq. destruct (send_succeeds env _); by eexists.
Qed.

Lemma handleClientMessage_normal env client data s :
  (handleClientMessage env client data s).2 = Normal tt.
Proof.
  unfold handleClientMessage.
  assert (Hcatch : ∀ s', (sendError env "Invalid message format" s').2
                         = Normal tt).
  { intros s'. rewrite sendError_eq. by destruct (send_succeeds env _). }
  destruct data as [[message|sym itv| |type]|].
  - destruct (handleSubscribe_normal env client message s) as [s' Hs'].
    by rewrite (try_catch_normal _ _ s s' tt).
  - done.
  - unfold try_catch, handlePing, client_send, emit.
    destruct (send_succeeds env PongMessage); [done|apply Hcatch].
  - unfold try_catch at 1. rewrite sendError_eq.
    by destruct (send_succeeds env _).
  - unfold try_catch at 1. apply Hcatch.
Qed.

(** X23: no frame makes the message handler raise, whether or not the
    frame parses, whatever the history service answers and even when every
    send on the socket fails. *)
Theorem X23_dispatcher_never_raises env client data s :
  (handleClientMessage env client data s).2 = Normal tt.
Proof. apply handleClientMessage_normal. Qed.

(** X24: a ping, a message of an unknown type and a frame that does not
    parse never touch the room registry and never fetch history; on a
    socket that accepts every send they are answered by exactly one
    message: a pong, the error naming the unknown type, and the error
    "Invalid message format". *)
Theorem X24_stateless_frames env client s :
  (∀ data, (∀ message, data ≠ Some (SubscribeFrame message)) →
           (∀ sym itv, data ≠ Some (UnsubscribeFrame sym itv)) →
     ∃ new, (handleClientMessage env client data s).1
            = mkHandlerState (broadcaster s) (effects s ++ new)
       ∧ fetch_limits new = [])
  ∧ ((∀ m, send_succeeds env m = true) →
     effects (handleClientMessage env client (Some PingFrame) s).1
       = effects s ++ [Sent PongMessage]
     ∧ (∀ type,
         effects (handleClientMessage env client
                    (Some (UnknownFrame type)) s).1
         = effects s
           ++ [Sent (ErrorMessage ("Unknown message type: " +:+ type))])
     ∧ effects (handleClientMessage env client None s).1
       = effects s ++ [Sent (ErrorMessage "Invalid message format")]).
Proof.
  split.
  - intros data Hsub Hunsub. unfold handleClientMessage.
    destruct data as [[message|sym itv| |type]|].
    + by destruct (Hsub message).
    + by destruct (Hunsub sym itv).
    + unfold try_catch, handlePing, client_send, emit.
      destruct (send_succeeds env PongMessage).
      * by exists [Sent PongMessage].
      * destruct (sendError_frame env "Invalid message format" s)
          as (new & -> & Hnew & _). by exists new.
    + unfold try_catch at 1.
      destruct (sendError_frame env ("Unknown message type: " +:+ type) s)
        as (new & -> & Hnew & _). by exists new.
    + unfold try_catch at 1.
      destruct (sendError_frame env "Invalid message format" s)
        as (new & -> & Hnew & _). by exists new.
  - intros Hok. unfold handleClientMessage, try_catch, handlePing,
      client_send, emit. rewrite Hok. split; [done|]. split.
    + intros type. by rewrite sendError_eq, Hok.
    + by rewrite sendError_eq, Hok.
Qed.

Lemma X24_stateless_frames_witness :
  effects (handleClientMessage quiet_env 1%nat (Some PingFrame) fresh_state).1
  = [Sent PongMessage].
Proof.
  refine (proj1 (proj2 (X24_stateless_frames quiet_env 1%nat fresh_state) _)).
  intros m. reflexivity.
Defined.

Lemma handleSubscribe_broadcaster env client message s :
  broadcaster (handleSubscribe env client message s).1
  = if decide (valid_subscribe message)
    then addClientToRoom client
           (mkSubscription (msg_symbol message) (msg_interval message))
           (broadcaster s)
    else broadcaster s.
Proof.
  destruct (decide (valid_subscribe message)) as [Hv|Hv].
  - rewrite handleSubscribe_valid by done. cbv zeta.
    destruct (getHistoricalCandles env _ _ _) as [candles|].
    + destruct (send_succeeds env (InitialDataMessage _ _ _)); [done|].
      rewrite sendError_eq. by destruct (send_succeeds env _).
    + rewrite sendError_eq. by destruct (send_succeeds env _).
  - rewrite handleSubscribe_invalid by done.
    rewrite sendError_eq. by destruct (send_succeeds env _).
Qed.

Lemma dispatch_subscribe env client message s :
  handleClientMessage env client (Some (SubscribeFrame message)) s
  = handleSubscribe env client message s.
Proof.
  unfold handleClientMessage.
  destruct (handleSubscribe_normal env client message s) as [s' Hs'].
  rewrite Hs'. by apply try_catch_normal.
Qed.

(** X25: a valid subscribe makes the client a member of the room of its
    subscription whatever happens next: the membership is kept when the
    history fetch fails, in which case the client is sent the error "Failed
    to subscribe to candles" instead of the initial candles. *)
Theorem X25_subscribe_keeps_membership env client message s :
  valid_subscribe message →
  let sym := msg_symbol message in
  let itv := msg_interval message in
  let k := getRoomKey (mkSubscription sym itv) in
  let s' := (handleClientMessage env client
               (Some (SubscribeFrame message)) s).1 in
  member client k (broadcaster s')
  ∧ k ∈ subscriptions_of client (broadcaster s')
  ∧ ((∀ m, send_succeeds env m = true) →
     let limit := default 100 (initialBars message) in
     effects s'
     = effects s
       ++ [Fetched sym itv limit;
           Sent match getHistoricalCandles env sym itv limit with
                | Some candles => InitialDataMessage sym itv candles
                | None => ErrorMessage "Failed to subscribe to candles"
                end]).
Proof.
  intros Hv sym itv k s'. subst s'. rewrite dispatch_subscribe.
  rewrite handleSubscribe_broadcaster, decide_True by done.
  fold sym itv. split; [|split].
  - destruct (addClientToRoom_lookup client (mkSubscription sym itv)
                (broadcaster s)) as (room & Hroom & Hin & _).
    by exists room.
  - rewrite addClientToRoom_subscriptions, decide_True by done.
    apply elem_of_union_l. by apply elem_of_singleton.
  - intros Hok limit. rewrite handleSubscribe_valid by done. cbv zeta.
    fold sym itv limit.
    destruct (getHistoricalCandles env sym itv limit) as [candles|].
    + rewrite Hok. cbn [fst effects]. by rewrite <- app_assoc.
    + rewrite sendError_eq, Hok. cbn [fst effects]. by rewrite <- app_assoc.
Qed.

Lemma X25_subscribe_keeps_membership_witness :
  let env := mkEnv (λ _ _ _, None) (λ _, true) in
  let s' := (handleClientMessage env 1%nat
               (Some (SubscribeFrame (mkSubscribe "BTC/USDT" "5m" None)))
               fresh_state).1 in
  member 1%nat "BTC/USDT:5m" (broadcaster s')
  ∧ effects s'
    = [Fetched "BTC/USDT" "5m" 100;
       Sent (ErrorMessage "Failed to subscribe to candles")].
Proof.
  intros env s'.
  assert (Hv : valid_subscribe (mkSubscribe "BTC/USDT" "5m" None)).
  { split; [right; left|reflexivity]. }
  destruct (X25_subscribe_keeps_membership env 1%nat
              (mkSubscribe "BTC/USDT" "5m" None) fresh_state Hv)
    as (Hm & _ & He).
  split; [exact Hm|]. apply He. intros m. reflexivity.
Defined.

(** X26: a subscribe that fails validation leaves the room registry as it
    was; on a socket that accepts every send the client gets exactly one
    error, naming the interval when the interval is not supported and the
    symbol otherwise. *)
Theorem X26_invalid_subscribe env client message s :
  ¬ valid_subscribe message →
  let s' := (handleClientMessage env client
               (Some (SubscribeFrame message)) s).1 in
  broadcaster s' = broadcaster s
  ∧ ((∀ m, send_succeeds env m = true) →
     effects s'
     = effects s
       ++ [Sent (ErrorMessage
             (if decide (msg_interval message ∈ VALID_INTERVALS)
              then "Invalid symbol: " +:+ msg_symbol message
                   +:+ ". Only BTC/USDT is supported."
              else "Invalid interval: " +:+ msg_interval message
                   +:+ ". Valid: 1m, 5m, 15m, 1h, 4h, 1D, 1W")%string)]).
Proof.
  intros Hv s'. subst s'. rewrite dispatch_subscribe. split.
  - by rewrite handleSubscribe_broadcaster, decide_False.
  - intros Hok. rewrite handleSubscribe_invalid, sendError_eq, Hok by done.
    cbn [fst effects]. do 3 f_equal.
    destruct (decide (msg_interval message ∈ VALID_INTERVALS)) as [Hi|Hi].
    + rewrite decide_False; [done|]. intros Hn. by apply Hn.
    + by rewrite decide_True.
Qed.

Lemma X26_invalid_subscribe_witness :
  effects (handleClientMessage quiet_env 1%nat
             (Some (SubscribeFrame (mkSubscribe "ETH/USDT" "5m" None)))
             fresh_state).1
  = [Sent (ErrorMessage
             "Invalid symbol: ETH/USDT. Only BTC/USDT is supported.")].
Proof.
  refine (proj2 (X26_invalid_subscribe quiet_env 1%nat
                   (mkSubscribe "ETH/USDT" "5m" None) fresh_state _) _).
  - intros [_ Hs]. discriminate Hs.
  - intros m. reflexivity.
Defined.

(** X27: an unsubscribe is never answered and never validated: it sends
    nothing and only takes the client out of the room of the pair.  After a
    valid subscribe by a client that was not in the room, the unsubscribe
    of the same pair restores the rooms of the registry, whatever the
    history service answered to the subscribe. *)
Theorem X27_subscribe_then_unsubscribe env client message s :
  let sym := msg_symbol message in
  let itv := msg_interval message in
  let s1 := (handleClientMessage env client
               (Some (SubscribeFrame message)) s).1 in
  let s2 := (handleClientMessage env client
               (Some (UnsubscribeFrame sym itv)) s1).1 in
  effects s2 = effects s1
  ∧ broadcaster s2
    = removeClientFromRoom client (mkSubscription sym itv) (broadcaster s1)
  ∧ (valid_subscribe message →
     rooms_nonempty (broadcaster s) →
     ¬ member client (getRoomKey (mkSubscription sym itv)) (broadcaster s) →
     rooms (broadcaster s2) = rooms (broadcaster s)).
Proof.
  intros sym itv s1 s2. subst s2. split; [done|]. split; [done|].
  intros Hv Hne Hnot. cbn [handleClientMessage fst broadcaster].
  unfold handleClientMessage at 1, try_catch, handleUnsubscribe, try_catch,
    leave. cbn [fst broadcaster].
  subst s1. rewrite dispatch_subscribe, handleSubscribe_broadcaster.
  rewrite decide_True by done. by apply leave_after_join_rooms.
Qed.

Lemma X27_subscribe_then_unsubscribe_witness :
  let env := mkEnv (λ _ _ _, None) (λ _, false) in
  let message := mkSubscribe "BTC/USDT" "5m" None in
  let s1 := (handleClientMessage env 1%nat
               (Some (SubscribeFrame message)) fresh_state).1 in
  rooms (broadcaster
           (handleClientMessage env 1%nat
              (Some (UnsubscribeFrame "BTC/USDT" "5m")) s1).1)
  = rooms (broadcaster fresh_state).
Proof.
  intros env message s1.
  refine (proj2 (proj2 (X27_subscribe_then_unsubscribe env 1%nat message
                          fresh_state)) _ _ _).
  - split; [right; left|reflexivity].
  - intros k room Hk. simpl in Hk. by rewrite lookup_empty in Hk.
  - intros (room & Hk & _). simpl in Hk. by rewrite lookup_empty in Hk.
Defined.

(** ** The limit of the history fetch *)



(** ** Intervals and the history service *)

Lemma interval_tables itv :
  (itv ∈ VALID_INTERVALS ↔ is_Some (intervalMap itv))
  ∧ ∀ minutes, intervalMap itv = Some minutes
               ↔ INTERVAL_TO_MS itv = Some (minutes * 60000).
Proof.
  unfold VALID_INTERVALS, intervalMap, INTERVAL_TO_MS.
  rewrite !elem_of_cons, elem_of_nil.
  repeat case_decide; subst; (split; [split|intros minutes; split]);
    try (intros _; by eexists);
    try (intros Hx; injection Hx as Hx; f_equal; lia);
    try (intros Hx; discriminate Hx);
    try (intros [? Hx]; discriminate Hx);
    naive_solver.
Qed.

(** X28: the intervals that pass the validation of a subscribe are exactly
    those of the table of the store query and of the table of the
    aggregator, and the two tables agree: the bar length in milliseconds is
    the bucket width in minutes times 60000.  For any other interval the
    history service raises and leaves the aggregator as it was, whatever
    the store holds. *)
Theorem X28_interval_tables_agree itv :
  (itv ∈ VALID_INTERVALS ↔ is_Some (intervalMap itv))
  ∧ (itv ∈ VALID_INTERVALS ↔ is_Some (INTERVAL_TO_MS itv))
  ∧ (∀ minutes, intervalMap itv = Some minutes
                ↔ INTERVAL_TO_MS itv = Some (minutes * 60000))
  ∧ (itv ∉ VALID_INTERVALS →
     ∀ store sym limit agg,
       historicalCandles store sym itv limit agg = (agg, Throw)).
Proof.
  destruct (interval_tables itv) as [Hv Hm].
  split; [done|]. split; [|split; [done|]].
  - rewrite Hv. split.
    + intros [minutes H]. apply Hm in H. by eexists.
    + intros [ms H]. destruct (intervalMap itv) as [minutes|] eqn:Hi;
        [by eexists|].
      exfalso. revert Hi H. unfold intervalMap, INTERVAL_TO_MS.
      repeat case_decide; done.
  - intros Hn store sym limit agg. unfold historicalCandles, getCandlesticks.
    destruct (intervalMap itv) eqn:Hi; [|done].
    destruct Hn. apply Hv. by eexists.
Qed.

Lemma getCandlesticks_1m store sym limit :
  getCandlesticks store sym "1m" limit
  = match store 1 sym limit with
    | Some rows => Normal rows
    | None => Throw
    end.
Proof. reflexivity. Qed.

(** X29: a fetch of 1m history that the store answers with at least one
    candle returns the candles as the store gave them and replaces the
    window of the symbol by the last 1440 of them in order of time, however
    few they are; an empty answer leaves the window alone, and a failure of
    the store is raised with the aggregator unchanged. *)
Theorem X29_history_1m store sym limit agg :
  let out := historicalCandles store sym "1m" limit agg in
  match store 1 sym limit with
  | Some rows =>
      out.2 = Normal rows
      ∧ (rows = [] → out.1 = agg)
      ∧ (rows ≠ [] →
         getOneMinuteCandles sym out.1
         = last_n 1440 (JsArray.sort compareTime rows)
         ∧ length (getOneMinuteCandles sym out.1)
           = Nat.min (length rows) 1440)
  | None => out = (agg, Throw)
  end.
Proof.
  intros out.
  assert (Hout : out
    = match store 1 sym limit with
      | Some rows =>
          (if decide (0 < length rows)%nat
           then initializeCandles sym rows agg else agg, Normal rows)
      | None => (agg, Throw)
      end).
  { subst out. unfold historicalCandles. rewrite getCandlesticks_1m.
    destruct (store 1 sym limit) as [rows|]; [|done].
    rewrite (decide_False (P := "1m"%string ≠ "1m"%string)) by (by intros H).
    f_equal. destruct (decide (0 < length rows)%nat).
    - by rewrite decide_True.
    - rewrite decide_False; [done|]. by intros [_ ?]. }
  clearbody out. subst out.
  destruct (store 1 sym limit) as [rows|]; [|done].
  cbn [fst snd]. split; [done|]. split.
  - intros ->. done.
  - intros Hne. rewrite decide_True by (destruct rows; [done|simpl; lia]).
    rewrite window_initialize, decide_True by done. split.
    + unfold last_n, MAX_1M_CANDLES. rewrite !length_sort. f_equal. lia.
    + rewrite length_last_n, length_sort. unfold MAX_1M_CANDLES. lia.
Qed.

Lemma X29_history_1m_witness :
  let store : Store := λ _ _ _, Some [candle_1001] in
  let agg := initializeCandles "BTC/USDT" [candle_1000; candle_1001]
               emptyAggregator in
  getOneMinuteCandles "BTC/USDT"
    (historicalCandles store "BTC/USDT" "1m" 1 agg).1
  = last_n 1440 (JsArray.sort compareTime [candle_1001]).
Proof.
  intros store agg.
  pose proof (X29_history_1m store "BTC/USDT" 1 agg) as H.
  cbv zeta in H. change (store 1 "BTC/USDT"%string 1) with (Some [candle_1001]) in H.
  destruct H as (_ & _ & H). apply H. discriminate.
Defined.

(** X30: a fetch of history for a supported interval other than 1m leaves
    a non-empty window alone and returns the candles of the store.  With an
    empty window it first warms the aggregator with the last 1440 1m
    candles of the store; if that second query fails the whole fetch
    raises, although the requested candles had been read. *)
Theorem X30_history_higher store sym itv minutes limit rows agg :
  itv ≠ "1m"%string →
  intervalMap itv = Some minutes →
  store minutes sym limit = Some rows →
  let out := historicalCandles store sym itv limit agg in
  (getOneMinuteCandles sym agg ≠ [] → out = (agg, Normal rows))
  ∧ (getOneMinuteCandles sym agg = [] →
     match store 1 sym 1440 with
     | Some rows1m =>
         out.2 = Normal rows
         ∧ getOneMinuteCandles sym out.1
           = last_n 1440 (JsArray.sort compareTime rows1m)
     | None => out = (agg, Throw)
     end).
Proof.
  intros Hitv Hmin Hrows out.
  assert (Hout : out
    = if decide (length (getOneMinuteCandles sym agg) = 0%nat)
      then match store 1 sym 1440 with
           | Some rows1m => (initializeCandles sym rows1m agg, Normal rows)
           | None => (agg, Throw)
           end
      else (agg, Normal rows)).
  { subst out. unfold historicalCandles, getCandlesticks at 1.
    rewrite Hmin, Hrows. cbv zeta.
    rewrite (decide_False (P := itv = "1m"%string ∧ (0 < length rows)%nat))
      by (by intros [? _]).
    rewrite (decide_True (P := itv ≠ "1m"%string)) by done.
    rewrite getCandlesticks_1m. by destruct (store 1 sym 1440). }
  clearbody out. subst out. split.
  - intros Hne.
    destruct (decide (length (getOneMinuteCandles sym agg) = 0%nat))
      as [Hlen|]; [|done].
    by apply length_zero_iff_nil in Hlen.
  - intros Hempty.
    destruct (decide (length (getOneMinuteCandles sym agg) = 0%nat))
      as [_|Hlen]; [|by rewrite Hempty in Hlen].
    destruct (store 1 sym 1440) as [rows1m|]; [|reflexivity].
    cbn [fst snd]. split; [done|].
    rewrite window_initialize, decide_True by done.
    unfold last_n, MAX_1M_CANDLES. rewrite !length_sort. f_equal. lia.
Qed.

Lemma X30_history_higher_witness :
  let store : Store :=
    λ minutes _ _, if decide (minutes = 1) then None
                   else Some [candle_1000] in
  historicalCandles store "BTC/USDT" "5m" 100 emptyAggregator
  = (emptyAggregator, Throw).
Proof.
  intros store.
  refine (proj2 (X30_history_higher store "BTC/USDT" "5m" 5 100 [candle_1000]
                   emptyAggregator _ eq_refl eq_refl) eq_refl).
  discriminate.
Defined.
